(** * Geodesic polygon offset: [source/cpp/math/expandingPolygon.h]

    A shallow embedding of the classes [LatLong] and [Polygon] and of the
    member functions [enlarge], [calculateAngleBisector], [calculateBearing]
    and [movePoint].

    Modelling conventions.
    - [double] is read as a real number ([R]): rounding, NaN and signed zeros
      are not modelled, and the literal [3.14159265358979323846] is the
      constant [PI].  The statements about angles and distances below are
      therefore statements about the formulas of the source, evaluated
      exactly.  The doubles of the source follow them up to rounding, with
      two exceptions that the statements keep away from: in [movePoint] the
      argument of [std::asin] can round above 1 when the projection lands
      next to a pole, and the result is then NaN; and [std::atan2] tells
      [-0.0] from [0.0], so on its branch cut the source can answer [- PI]
      where the real function answers [PI].
    - [std::vector<LatLong>] is a [list LatLong]; [push_back] appends at the
      end, [reserve] changes the capacity only and so has no counterpart.
      Failure to allocate ([std::bad_alloc], or [std::length_error] for a
      capacity beyond [max_size()]) is outside the model.
    - [size_t] is a 64-bit unsigned integer: index arithmetic is done in [Z]
      and reduced modulo [2^64].
    - A [Polygon] object is the pair of its two member vectors; the member
      function [enlarge] is a function from the state before the call to
      the state after it. *)

From Stdlib Require Import Ascii String.
From Stdlib Require Import Reals RNsatz Lra Lia ZArith List Bool Arith.
Import ListNotations.

Open Scope R_scope.

(** ** [<cmath>] on real numbers *)

Module Cmath.

(** [std::atan2(y, x)]: the angle of the point [(x, y)], in [(-PI, PI]];
    [atan2(0, 0)] is [0]. *)
Definition atan2 (y x : R) : R :=
  if Rlt_dec 0 x then atan (y / x)
  else if Rlt_dec x 0 then
    if Rle_dec 0 y then atan (y / x) + PI else atan (y / x) - PI
  else if Rlt_dec 0 y then PI / 2
  else if Rlt_dec y 0 then - (PI / 2)
  else 0.

(** Rounding towards zero, the quotient [std::fmod] removes. *)
Definition trunc (x : R) : Z :=
  if Rle_dec 0 x then Int_part x else (- Int_part (- x))%Z.

(** [std::fmod(x, y)]: [x - n * y] with [n] the quotient [x / y] rounded
    towards zero; the result has the sign of [x]. *)
Definition fmod (x y : R) : R := x - IZR (trunc (x / y)) * y.

End Cmath.

Import Cmath.

(** ** [class LatLong] *)

Record LatLong : Type := MkLatLong { latitude : R; longitude : R }.

(** ** The constants of [class Polygon] *)

Definition EARTH_RADIUS : R := 6371000.
Definition DEG_TO_RAD : R := PI / 180.
Definition RAD_TO_DEG : R := 180 / PI.

(** ** [Polygon::calculateBearing] *)

Definition calculateBearing (from to : LatLong) : R :=
  let dLon := (longitude to - longitude from) * DEG_TO_RAD in
  let lat1 := latitude from * DEG_TO_RAD in
  let lat2 := latitude to * DEG_TO_RAD in
  let y := sin dLon * cos lat2 in
  let x := cos lat1 * sin lat2 - sin lat1 * cos lat2 * cos dLon in
  fmod (atan2 y x + 2 * PI) (2 * PI).

(** ** [Polygon::calculateAngleBisector]

    The body is cut at its local variables: [angleDifference] is the value
    of the local of that name when it is compared with [PI], and
    [bisectorBearing] the value of that local when the [return] statement
    reads it. *)

Definition angleDifference (bearing1 bearing2 : R) : R :=
  let angleDifference := bearing2 - bearing1 in
  if Rlt_dec angleDifference 0 then angleDifference + 2 * PI
  else angleDifference.

Definition bisectorBearing (prev current next : LatLong) : R :=
  let bearing1 := calculateBearing current prev in
  let bearing2 := calculateBearing current next in
  let bisectorBearing := (bearing1 + bearing2) / 2 in
  let bisectorBearing :=
    if Rgt_dec (angleDifference bearing1 bearing2) PI
    then bisectorBearing + PI
    else bisectorBearing in
  fmod bisectorBearing (2 * PI).

Definition calculateAngleBisector (prev current next : LatLong) : LatLong :=
  let bisectorBearing := bisectorBearing prev current next in
  MkLatLong (cos bisectorBearing) (sin bisectorBearing).

(** ** [Polygon::movePoint]

    Over the real numbers the argument of [asin] never leaves [-1, 1]
    ([destination_sine_bounds]); the source passes it to [std::asin]
    unclamped, so a double that rounds above 1 gives NaN there. *)

Definition movePoint (point : LatLong) (bearing distance : R) : LatLong :=
  let d := distance / EARTH_RADIUS in
  let lat1 := latitude point * DEG_TO_RAD in
  let lon1 := longitude point * DEG_TO_RAD in
  let lat2 := asin (sin lat1 * cos d + cos lat1 * sin d * cos bearing) in
  let lon2 := lon1 + atan2 (sin bearing * sin d * cos lat1)
                           (cos d - sin lat1 * sin lat2) in
  MkLatLong (lat2 * RAD_TO_DEG) (lon2 * RAD_TO_DEG).

(** ** [class Polygon] and [Polygon::enlarge] *)

Record Polygon : Type := MkPolygon {
  vertices : list LatLong;
  enlargedVertices : list LatLong
}.

(** A polygon object as a caller builds it: the vertices are filled in and
    [enlargedVertices] is the empty vector its default constructor leaves. *)
Definition newPolygon (vs : list LatLong) : Polygon :=
  {| vertices := vs; enlargedVertices := [] |}.

(** [size_t] arithmetic. *)
Definition size_t (z : Z) : Z := (z mod 2 ^ 64)%Z.

(** The elements of a [std::vector<LatLong>] take 16 bytes each, so its
    size never exceeds [max_size() = (2^63 - 1) / 16]. *)
Definition max_size : Z := (2 ^ 59 - 1)%Z.

(** [v[i]].  The index is within the vector at every use below
    ([prev_in_range], [next_in_range]); the default stands for the
    out-of-range access C++ leaves undefined. *)
Definition vector_at (v : list LatLong) (i : Z) : LatLong :=
  nth (Z.to_nat i) v (MkLatLong 0 0).

(** [this->enlargedVertices = std::move(vertices)]: the output drops what
    it held and takes over the storage of [vertices], and [vertices] is left
    empty.  (With [std::allocator] the move assignment of a vector is a
    constant-time transfer of the buffer; libstdc++, libc++ and the MSVC
    library all leave the source with no elements.) *)
Definition move_vertices (p : Polygon) : Polygon :=
  {| vertices := []; enlargedVertices := vertices p |}.

Section Enlarge.

(** [movePoint] declares its second parameter [double bearing]; the call in
    [enlarge] hands it the [LatLong] that [calculateAngleBisector] returns.
    The source declares no conversion from [LatLong] to [double]: the number
    that reaches [movePoint] is a parameter of the model. *)
Variable bearing_of_bisector : LatLong -> R.

(** The indices [prev] and [next] of the loop body. *)
Definition prev_index (n i : Z) : Z := (size_t (i + n - 1) mod n)%Z.
Definition next_index (n i : Z) : Z := (size_t (i + 1) mod n)%Z.

(** The vertex the loop body computes at index [i]. *)
Definition enlargedVertex (vs : list LatLong) (distance : R) (i : Z) : LatLong :=
  let n := Z.of_nat (length vs) in
  let prev := prev_index n i in
  let curr := vector_at vs i in
  let next := next_index n i in
  let bisector := calculateAngleBisector (vector_at vs prev) curr (vector_at vs next) in
  movePoint curr (bearing_of_bisector bisector) distance.

(** One turn of the [for] loop: [enlargedVertices.push_back(enlargedVertex)]. *)
Definition enlarge_body (distance : R) (p : Polygon) (i : nat) : Polygon :=
  {| vertices := vertices p;
     enlargedVertices :=
       enlargedVertices p ++ [enlargedVertex (vertices p) distance (Z.of_nat i)] |}.

(** The number of turns of the loop: [vertices.size()] as the loop reads it,
    that is after the [if (distance == 0.0)] block. *)
Definition loop_turns (p : Polygon) : nat := length (vertices p).

(** [for (size_t i = 0; i < vertices.size(); ++i) ...] *)
Definition enlarge_loop (distance : R) (p : Polygon) : Polygon :=
  fold_left (enlarge_body distance) (seq 0 (loop_turns p)) p.

(** The [if (distance == 0.0)] block. *)
Definition enlarge_fast_path (distance : R) (p : Polygon) : Polygon :=
  if Req_dec_T distance 0 then move_vertices p else p.

Definition enlarge (distance : R) (p : Polygon) : Polygon :=
  if (length (vertices p) <? 3)%nat then p
  else enlarge_loop distance (enlarge_fast_path distance p).

End Enlarge.

(** ** Great-circle distance *)

(** Modelled from the spec: the source has no distance function; the spec's
    glossary calls great-circle distance the shortest distance between two
    points along the surface of the sphere.  On the sphere of radius
    [EARTH_RADIUS] it is the radius times the central angle, which the
    spherical law of cosines gives from the two latitudes and the
    difference of the longitudes. *)
Definition greatCircleDistance (a b : LatLong) : R :=
  let lat1 := latitude a * DEG_TO_RAD in
  let lat2 := latitude b * DEG_TO_RAD in
  let dLon := (longitude b - longitude a) * DEG_TO_RAD in
  EARTH_RADIUS * acos (sin lat1 * sin lat2 + cos lat1 * cos lat2 * cos dLon).

(** ** Sample inputs *)

(** A triangle with one vertex at the origin, one on the equator and one on
    the Greenwich meridian. *)
Definition triangle : list LatLong :=
  [MkLatLong 0 0; MkLatLong 0 1; MkLatLong 1 0].

(** A stand-in for the missing conversion, for the closed examples: the
    first component of the pair. *)
Definition first_component (b : LatLong) : R := latitude b.

(** * The demonstration program: [src/app.cpp]

    [std::string] is a [string], a sequence of 8-bit characters.  A position
    in a string is a [nat]; [std::string::npos], the answer of a search that
    finds nothing, is [None].  [int] counters stay far below [2^31] and are
    kept in [Z]. *)

(** [std::tolower] in the "C" locale, the one in force as the program never
    calls [setlocale]: the letters [A] to [Z] (65 to 90) move to [a] to [z],
    every other character stays. *)
Definition tolower (c : ascii) : ascii :=
  let n := N_of_ascii c in
  if ((65 <=? n) && (n <=? 90))%N then ascii_of_N (n + 32) else c.

(** [to_lower]: [std::transform] over the whole string with [tolower]. *)
Fixpoint to_lower (str : string) : string :=
  match str with
  | EmptyString => EmptyString
  | String c rest => String (tolower c) (to_lower rest)
  end.

(** The characters [trim] removes: space, tab, line feed, carriage return. *)
Definition whitespace : string :=
  String (ascii_of_nat 32) (String (ascii_of_nat 9)
    (String (ascii_of_nat 10) (String (ascii_of_nat 13) EmptyString))).

(** Whether [c] occurs in [chars]. *)
Fixpoint contains (chars : string) (c : ascii) : bool :=
  match chars with
  | EmptyString => false
  | String c' rest => Ascii.eqb c c' || contains rest c
  end.

(** [str.find_first_not_of(chars)]: the first position holding a character
    that is not in [chars]. *)
Fixpoint find_first_not_of (str chars : string) : option nat :=
  match str with
  | EmptyString => None
  | String c rest =>
      if contains chars c then option_map S (find_first_not_of rest chars)
      else Some 0%nat
  end.

(** [str.find_last_not_of(chars)]: the last such position. *)
Fixpoint find_last_not_of (str chars : string) : option nat :=
  match str with
  | EmptyString => None
  | String c rest =>
      match find_last_not_of rest chars with
      | Some i => Some (S i)
      | None => if contains chars c then None else Some 0%nat
      end
  end.

(** [str.substr(pos, len)] for [pos <= str.size()]: at most [len]
    characters from position [pos] on. *)
Definition substr (str : string) (pos len : nat) : string :=
  substring pos len str.

(** [trim].  When [start] is found [end] is found too and is not smaller
    ([find_last_after_first]), so [end - start + 1] does not wrap.  In the
    other branch [npos - start + 1] wraps to [2^64 - start], and [substr]
    stops at the end of the string. *)
Definition trim (str : string) : string :=
  match find_first_not_of str whitespace with
  | None => EmptyString
  | Some start =>
      match find_last_not_of str whitespace with
      | Some end_ => substr str start (end_ - start + 1)
      | None => substr str start (String.length str - start)
      end
  end.

Definition is_affirmative (answer : string) : bool :=
  let lower_answer := to_lower answer in
  (lower_answer =? "yes")%string || (lower_answer =? "y")%string ||
  (lower_answer =? "si")%string || (lower_answer =? "oui")%string ||
  (lower_answer =? "da")%string || (lower_answer =? "ja")%string.

Definition is_negative (answer : string) : bool :=
  let lower_answer := to_lower answer in
  (lower_answer =? "no")%string || (lower_answer =? "n")%string ||
  (lower_answer =? "non")%string || (lower_answer =? "nein")%string ||
  (lower_answer =? "nyet")%string.

(** ** Vocabulary for the properties of [trim] and of the answers *)

(** Every character of [s] is one of those [trim] removes. *)
Fixpoint all_whitespace (s : string) : bool :=
  match s with
  | EmptyString => true
  | String c rest => contains whitespace c && all_whitespace rest
  end.

Definition starts_with_whitespace (s : string) : bool :=
  match s with
  | EmptyString => false
  | String c _ => contains whitespace c
  end.

Fixpoint ends_with_whitespace (s : string) : bool :=
  match s with
  | EmptyString => false
  | String c EmptyString => contains whitespace c
  | String _ rest => ends_with_whitespace rest
  end.

(** [s] up to its last character that is not whitespace: what [trim]
    leaves behind its first kept character. *)
Definition rtrim (s : string) : string :=
  match find_last_not_of s whitespace with
  | Some i => substring 0 (S i) s
  | None => EmptyString
  end.

(** A capital letter of the "C" locale. *)
Definition is_upper (c : ascii) : bool :=
  ((65 <=? N_of_ascii c) && (N_of_ascii c <=? 90))%N.

Fixpoint has_upper (s : string) : bool :=
  match s with
  | EmptyString => false
  | String c rest => is_upper c || has_upper rest
  end.

(** A line [run] takes for an answer, yes or no, once trimmed. *)
Definition decisive (line : string) : bool :=
  is_affirmative (trim line) || is_negative (trim line).

Definition indecisive (line : string) : bool := negb (decisive line).

Module App.

(** What [run] writes, one constructor for each [fmt::print] and [spdlog]
    statement of the source, with the values it formats into the text.
    (The text of [print_fmt_version] depends on the macro [FMT_VERSION] of
    the fmt library.) *)
Inductive event : Type :=
| log_started
| print_welcome
| print_fmt_version
| print_spdlog
| print_built
| print_question
| log_read_failed
| print_provide_answer
| log_confirmed (attempts : Z)
| print_fantastic
| print_star
| log_negative (attempts : Z)
| print_honesty
| print_improve
| print_issue
| log_invalid (answer : string)
| print_yes_or_no
| print_remaining (remaining : Z) (plural : string)
| log_max_attempts (max_attempts : Z)
| print_too_many
| print_thanks.

(** The outcome of [run]: the value returned, what was written, and the
    part of the input left unread. *)
Record outcome : Type := Outcome {
  exit_code : Z;
  output : list event;
  cin_left : list string
}.

Definition max_attempts : Z := 5.

(** An empty answer gets a note of its own; the checks that follow run on
    it all the same. *)
Definition empty_note (answer : string) : list event :=
  if (answer =? "")%string then [print_provide_answer] else [].

(** The end of an invalid turn: the count of attempts left, unless none is. *)
Definition remaining_note (attempts : Z) : list event :=
  if (attempts <? max_attempts)%Z
  then [print_remaining (max_attempts - attempts)
          (if (max_attempts - attempts =? 1)%Z then "" else "s")%string]
  else [].

(** The [while] loop.  The standard input is the list of the lines the
    successive calls of [std::getline] deliver; once the list is used up
    [getline] fails. *)
Fixpoint run_loop (attempts : Z) (cin : list string) : outcome :=
  if (attempts <? max_attempts)%Z then
    match cin with
    | [] => Outcome 1 [print_question; log_read_failed] []
    | line :: cin =>
        let answer := trim line in
        let attempts := (attempts + 1)%Z in
        if is_affirmative answer then
          Outcome 0
            (print_question :: empty_note answer ++
             [log_confirmed attempts; print_fantastic; print_star])
            cin
        else if is_negative answer then
          Outcome 0
            (print_question :: empty_note answer ++
             [log_negative attempts; print_honesty; print_improve; print_issue])
            cin
        else
          let rest := run_loop attempts cin in
          Outcome (exit_code rest)
            (print_question :: empty_note answer ++
             [log_invalid answer; print_yes_or_no] ++
             remaining_note attempts ++ output rest)
            (cin_left rest)
    end
  else
    Outcome 0 [log_max_attempts max_attempts; print_too_many; print_thanks] cin.

(** [App::run]. *)
Definition run (cin : list string) : outcome :=
  let rest := run_loop 0 cin in
  Outcome (exit_code rest)
    ([log_started; print_welcome; print_fmt_version; print_spdlog; print_built]
     ++ output rest)
    (cin_left rest).

End App.

(** * Properties *)

(** ** The loop of [enlarge] *)

Section LoopFacts.

Variable bearing_of_bisector : LatLong -> R.

Lemma fold_enlarge_body (distance : R) (l : list nat) (p : Polygon) :
  fold_left (enlarge_body bearing_of_bisector distance) l p =
  {| vertices := vertices p;
     enlargedVertices :=
       enlargedVertices p ++
       map (fun i => enlargedVertex bearing_of_bisector (vertices p) distance (Z.of_nat i)) l |}.
Proof.
  revert p; induction l as [|i l IH]; intros p; simpl.
  - rewrite app_nil_r; now destruct p.
  - rewrite IH; simpl. now rewrite <- app_assoc.
Qed.

Lemma enlarge_loop_spec (distance : R) (p : Polygon) :
  enlarge_loop bearing_of_bisector distance p =
  {| vertices := vertices p;
     enlargedVertices :=
       enlargedVertices p ++
       map (fun i => enlargedVertex bearing_of_bisector (vertices p) distance (Z.of_nat i))
           (seq 0 (length (vertices p))) |}.
Proof. apply fold_enlarge_body. Qed.

Lemma enlarge_small (distance : R) (p : Polygon) :
  (length (vertices p) < 3)%nat -> enlarge bearing_of_bisector distance p = p.
Proof.
  intros H; unfold enlarge.
  now apply Nat.ltb_lt in H; rewrite H.
Qed.

Lemma enlarge_general (distance : R) (p : Polygon) :
  (3 <= length (vertices p))%nat -> distance <> 0 ->
  enlarge bearing_of_bisector distance p =
  {| vertices := vertices p;
     enlargedVertices :=
       enlargedVertices p ++
       map (fun i => enlargedVertex bearing_of_bisector (vertices p) distance (Z.of_nat i))
           (seq 0 (length (vertices p))) |}.
Proof.
  intros Hn Hd; unfold enlarge, enlarge_fast_path.
  apply Nat.ltb_ge in Hn; rewrite Hn.
  destruct (Req_dec_T distance 0) as [E|_]; [contradiction|].
  apply enlarge_loop_spec.
Qed.

Lemma enlarge_zero (p : Polygon) :
  (3 <= length (vertices p))%nat ->
  enlarge bearing_of_bisector 0 p = move_vertices p.
Proof.
  intros Hn; unfold enlarge, enlarge_fast_path.
  apply Nat.ltb_ge in Hn; rewrite Hn.
  destruct (Req_dec_T 0 0) as [_|N]; [|contradiction].
  rewrite enlarge_loop_spec; simpl. now rewrite app_nil_r.
Qed.

End LoopFacts.

(** ** Circular indices *)

Lemma size_t_small (z : Z) : (0 <= z < 2 ^ 64)%Z -> size_t z = z.
Proof. intros H; unfold size_t; now apply Z.mod_small. Qed.

Lemma prev_index_spec (n i : Z) :
  (0 <= i < n)%Z -> (n <= max_size)%Z ->
  prev_index n i = ((i - 1 + n) mod n)%Z.
Proof.
  intros Hi Hn; unfold prev_index, max_size in *.
  rewrite size_t_small by lia. f_equal; lia.
Qed.

Lemma next_index_spec (n i : Z) :
  (0 <= i < n)%Z -> (n <= max_size)%Z ->
  next_index n i = ((i + 1) mod n)%Z.
Proof.
  intros Hi Hn; unfold next_index, max_size in *.
  now rewrite size_t_small by lia.
Qed.

Lemma prev_in_range (n i : Z) :
  (0 <= i < n)%Z -> (0 <= prev_index n i < n)%Z.
Proof. intros Hi; unfold prev_index; apply Z.mod_pos_bound; lia. Qed.

Lemma next_in_range (n i : Z) :
  (0 <= i < n)%Z -> (0 <= next_index n i < n)%Z.
Proof. intros Hi; unfold next_index; apply Z.mod_pos_bound; lia. Qed.

Lemma vector_at_app_r (a b : list LatLong) (i : Z) :
  (0 <= i)%Z -> vector_at (a ++ b) (Z.of_nat (length a) + i) = vector_at b i.
Proof.
  intros Hi; unfold vector_at.
  rewrite app_nth2 by lia. f_equal; lia.
Qed.

Lemma vector_at_map_seq (f : nat -> LatLong) (n : nat) (i : Z) :
  (0 <= i < Z.of_nat n)%Z ->
  vector_at (map f (seq 0 n)) i = f (Z.to_nat i).
Proof.
  intros Hi; unfold vector_at.
  rewrite nth_indep with (d' := f 0%nat) by (rewrite length_map, length_seq; lia).
  rewrite map_nth, seq_nth by lia. reflexivity.
Qed.

(** X10.  On any object, leftover output included, the general path keeps what
    [enlargedVertices] held and writes the vertex computed at index [i]
    behind it, at index [enlargedVertices.size() + i]. *)
Lemma enlarge_appends_after_leftover
  (bearing_of_bisector : LatLong -> R) (distance : R) (p : Polygon) (i : Z) :
  (3 <= length (vertices p))%nat -> distance <> 0 ->
  (0 <= i < Z.of_nat (length (vertices p)))%Z ->
  let out := enlargedVertices (enlarge bearing_of_bisector distance p) in
  length out = (length (enlargedVertices p) + length (vertices p))%nat /\
  vector_at out (Z.of_nat (length (enlargedVertices p)) + i) =
    enlargedVertex bearing_of_bisector (vertices p) distance i.
Proof.
  intros Hn Hd Hi out; subst out.
  rewrite enlarge_general by assumption; simpl. split.
  - now rewrite length_app, length_map, length_seq.
  - rewrite vector_at_app_r by lia.
    rewrite vector_at_map_seq by assumption.
    now rewrite Z2Nat.id by lia.
Qed.

(** ** The orchestrator: [enlarge] *)

(** C7.  Silent no-op for small inputs: with fewer than 3 vertices, at any
    distance, [enlarge] returns the polygon as it was, input vertices and
    output storage alike.  The model of [enlarge] is a total function, so
    the call returns and there is no error outcome to report. *)
Theorem enlarge_fewer_than_three_is_noop
  (bearing_of_bisector : LatLong -> R) (distance : R) (p : Polygon) :
  (length (vertices p) < 3)%nat ->
  enlarge bearing_of_bisector distance p = p /\
  vertices (enlarge bearing_of_bisector distance p) = vertices p /\
  enlargedVertices (enlarge bearing_of_bisector distance p) = enlargedVertices p.
Proof.
  intros H. rewrite (enlarge_small _ _ _ H). repeat split.
Qed.

Lemma enlarge_fewer_than_three_is_noop_witness :
  let p := newPolygon [MkLatLong 0 0; MkLatLong 0 1] in
  enlarge first_component 25 p = p /\
  vertices (enlarge first_component 25 p) = vertices p /\
  enlargedVertices (enlarge first_component 25 p) = enlargedVertices p.
Proof.
  apply (enlarge_fewer_than_three_is_noop first_component 25
           (newPolygon [MkLatLong 0 0; MkLatLong 0 1])).
  simpl; lia.
Defined.

(** C1.  Zero-distance identity: for a polygon with at least 3 vertices,
    whatever its output storage held, [enlarge(0)] leaves in
    [enlargedVertices] exactly the input vertex sequence.  It comes from
    the [distance == 0.0] block alone: the loop that follows makes no turn,
    so no bisector is computed and no point is projected. *)
Theorem enlarge_zero_distance_identity
  (bearing_of_bisector : LatLong -> R) (p : Polygon) :
  (3 <= length (vertices p))%nat ->
  enlargedVertices (enlarge bearing_of_bisector 0 p) = vertices p /\
  enlarge bearing_of_bisector 0 p = enlarge_fast_path 0 p /\
  loop_turns (enlarge_fast_path 0 p) = 0%nat.
Proof.
  intros H. rewrite (enlarge_zero _ _ H).
  unfold enlarge_fast_path.
  destruct (Req_dec_T 0 0) as [_|N]; [|contradiction].
  repeat split.
Qed.

Lemma enlarge_zero_distance_identity_witness :
  enlargedVertices (enlarge first_component 0 (newPolygon triangle)) = triangle /\
  enlarge first_component 0 (newPolygon triangle) =
    enlarge_fast_path 0 (newPolygon triangle) /\
  loop_turns (enlarge_fast_path 0 (newPolygon triangle)) = 0%nat.
Proof.
  apply (enlarge_zero_distance_identity first_component (newPolygon triangle)).
  simpl; lia.
Defined.

(** C4.  Cardinality and index alignment.  The claim asks that the output
    of a call with [n >= 3] vertices and a nonzero distance have exactly [n]
    entries, entry [i] being the projection of vertex [i] along the bisector
    bearing at that vertex.  On any object the code keeps what
    [enlargedVertices] held ([old] entries), so the output has [old + n]
    entries and the vertex computed for index [i] sits at index [old + i];
    and what it hands to [movePoint] for the bearing is not the bisector
    bearing [b] but the pair of its cosine and sine.  ([n <= max_size] holds
    of every vector.) *)
Theorem enlarge_output_on_any_object
  (bearing_of_bisector : LatLong -> R) (distance : R) (p : Polygon) :
  (3 <= length (vertices p))%nat ->
  (Z.of_nat (length (vertices p)) <= max_size)%Z ->
  distance <> 0 ->
  let vs := vertices p in
  let old := enlargedVertices p in
  let n := Z.of_nat (length vs) in
  let out := enlargedVertices (enlarge bearing_of_bisector distance p) in
  length out = (length old + length vs)%nat /\
  (forall i : Z, (0 <= i < Z.of_nat (length old))%Z ->
     vector_at out i = vector_at old i) /\
  (forall i : Z, (0 <= i < n)%Z ->
     let b := bisectorBearing (vector_at vs ((i - 1 + n) mod n))
                              (vector_at vs i)
                              (vector_at vs ((i + 1) mod n)) in
     vector_at out (Z.of_nat (length old) + i) =
     movePoint (vector_at vs i)
               (bearing_of_bisector (MkLatLong (cos b) (sin b)))
               distance).
Proof.
  intros Hn Hmax Hd vs old n out; subst vs old n out.
  rewrite enlarge_general by assumption; simpl.
  split; [|split].
  - now rewrite length_app, length_map, length_seq.
  - intros i Hi. unfold vector_at. apply app_nth1; lia.
  - intros i Hi; cbv zeta.
    rewrite vector_at_app_r by lia.
    rewrite vector_at_map_seq by assumption.
    unfold enlargedVertex, calculateAngleBisector.
    rewrite Z2Nat.id by lia.
    now rewrite prev_index_spec, next_index_spec by assumption.
Qed.

Lemma enlarge_output_on_any_object_witness :
  let p := {| vertices := triangle; enlargedVertices := [MkLatLong 5 5] |} in
  let out := enlargedVertices (enlarge first_component 1 p) in
  length out = 4%nat /\
  vector_at out 0 = MkLatLong 5 5.
Proof.
  destruct (enlarge_output_on_any_object first_component 1
              {| vertices := triangle; enlargedVertices := [MkLatLong 5 5] |})
    as (Hlen & Hold & _).
  - simpl; lia.
  - unfold max_size; simpl; lia.
  - lra.
  - split; [exact Hlen | apply (Hold 0%Z); simpl; lia].
Defined.

(** C2.  Re-invocation.  The claim asks that a second [enlarge(d)] on the
    same object give the same [n]-element result as the first.  With a
    nonzero distance the loop pushes onto whatever [enlargedVertices] holds:
    after the second call the output is the first result followed by a
    second copy of it, [2 * n] entries. *)
Theorem enlarge_twice_accumulates
  (bearing_of_bisector : LatLong -> R) (vs : list LatLong) (distance : R) :
  (3 <= length vs)%nat ->
  distance <> 0 ->
  let once := enlarge bearing_of_bisector distance (newPolygon vs) in
  let twice := enlarge bearing_of_bisector distance once in
  enlargedVertices twice = enlargedVertices once ++ enlargedVertices once /\
  length (enlargedVertices once) = length vs /\
  length (enlargedVertices twice) = (2 * length vs)%nat /\
  enlargedVertices twice <> enlargedVertices once.
Proof.
  intros Hn Hd once twice.
  assert (Honce : once =
    {| vertices := vs;
       enlargedVertices :=
         map (fun i => enlargedVertex bearing_of_bisector vs distance (Z.of_nat i))
             (seq 0 (length vs)) |}).
  { subst once. now rewrite enlarge_general by assumption. }
  assert (Htwice : enlargedVertices twice =
                   enlargedVertices once ++ enlargedVertices once).
  { subst twice. rewrite Honce.
    now rewrite enlarge_general by assumption. }
  assert (Hlen : length (enlargedVertices once) = length vs).
  { rewrite Honce; simpl. now rewrite length_map, length_seq. }
  repeat split; try assumption.
  - rewrite Htwice, length_app, Hlen; lia.
  - intros E. apply (f_equal (@length LatLong)) in E.
    rewrite Htwice, length_app, Hlen in E; lia.
Qed.

Lemma enlarge_twice_accumulates_witness :
  let once := enlarge first_component 1 (newPolygon triangle) in
  let twice := enlarge first_component 1 once in
  enlargedVertices twice = enlargedVertices once ++ enlargedVertices once /\
  length (enlargedVertices once) = 3%nat /\
  length (enlargedVertices twice) = 6%nat /\
  enlargedVertices twice <> enlargedVertices once.
Proof.
  apply (enlarge_twice_accumulates first_component triangle 1).
  - simpl; lia.
  - lra.
Defined.

(** C3.  Input immutability.  The claim asks that [enlarge] leave the input
    vertex sequence as it was at every distance, 0 included.  With a nonzero
    distance it does.  With distance 0 and at least 3 vertices the input is
    moved out of [vertices] into the output: after the call [vertices] is
    empty and [enlargedVertices] holds what the input held. *)
Theorem enlarge_zero_empties_input
  (bearing_of_bisector : LatLong -> R) (p : Polygon) :
  (3 <= length (vertices p))%nat ->
  vertices (enlarge bearing_of_bisector 0 p) = [] /\
  enlargedVertices (enlarge bearing_of_bisector 0 p) = vertices p /\
  vertices (enlarge bearing_of_bisector 0 p) <> vertices p /\
  (forall distance : R, distance <> 0 ->
     vertices (enlarge bearing_of_bisector distance p) = vertices p).
Proof.
  intros Hn. rewrite enlarge_zero by assumption. cbn [move_vertices vertices enlargedVertices].
  repeat split.
  - intros E. rewrite <- E in Hn. cbn [length] in Hn. lia.
  - intros distance Hd. now rewrite enlarge_general.
Qed.

Lemma enlarge_zero_empties_input_witness :
  vertices (enlarge first_component 0 (newPolygon triangle)) = [] /\
  enlargedVertices (enlarge first_component 0 (newPolygon triangle)) = triangle /\
  vertices (enlarge first_component 0 (newPolygon triangle)) <> triangle /\
  (forall distance : R, distance <> 0 ->
     vertices (enlarge first_component distance (newPolygon triangle)) = triangle).
Proof.
  apply (enlarge_zero_empties_input first_component (newPolygon triangle)).
  simpl; lia.
Defined.

(** ** [fmod] and [atan2] *)

Lemma PI_pos : 0 < PI.
Proof. exact PI_RGT_0. Qed.

Lemma trunc_nonneg (x : R) : 0 <= x -> trunc x = Int_part x.
Proof. intros H; unfold trunc. destruct (Rle_dec 0 x); [reflexivity|contradiction]. Qed.

(** [fmod x y] removes [k] times [y] when [x] lies in the [k]-th period. *)
Lemma fmod_period (x y : R) (k : Z) :
  0 < y -> 0 <= x ->
  IZR k * y <= x < (IZR k + 1) * y ->
  fmod x y = x - IZR k * y.
Proof.
  intros Hy Hx [Hlo Hhi]; unfold fmod.
  assert (Hq : x = x / y * y) by (field; lra).
  assert (H0 : 0 <= x / y).
  { apply Rmult_le_reg_r with y; [assumption|]. rewrite <- Hq; lra. }
  rewrite trunc_nonneg by assumption.
  replace (Int_part (x / y)) with k; [reflexivity|].
  apply Int_part_spec; split.
  - apply Rmult_lt_reg_r with y; [assumption|].
    rewrite Rmult_minus_distr_r, <- Hq; lra.
  - apply Rmult_le_reg_r with y; [assumption|]. now rewrite <- Hq.
Qed.

Lemma fmod_small (x y : R) : 0 <= x < y -> fmod x y = x.
Proof.
  intros [H0 H1]. rewrite (fmod_period x y 0); lra.
Qed.

Lemma fmod_second_period (x y : R) : 0 < y -> y <= x < 2 * y -> fmod x y = x - y.
Proof.
  intros Hy [H0 H1]. rewrite (fmod_period x y 1); lra.
Qed.

Lemma fmod_range (x y : R) : 0 < y -> 0 <= x -> 0 <= fmod x y < y.
Proof.
  intros Hy Hx; unfold fmod.
  assert (Hq : x = x / y * y) by (field; lra).
  assert (H0 : 0 <= x / y).
  { apply Rmult_le_reg_r with y; [assumption|]. rewrite <- Hq; lra. }
  rewrite trunc_nonneg by assumption.
  destruct (base_Int_part (x / y)) as [Hlo Hhi].
  set (k := IZR (Int_part (x / y))) in *.
  replace (x - k * y) with ((x / y - k) * y) by (field; lra).
  split.
  - apply Rmult_le_pos; lra.
  - apply Rle_lt_trans with ((x / y - k) * y); [lra|].
    apply Rlt_le_trans with (1 * y); [apply Rmult_lt_compat_r; lra | lra].
Qed.

Lemma atan_nonpos (t : R) : t <= 0 -> atan t <= 0.
Proof.
  intros [Hlt | ->].
  - left. rewrite <- atan_0. now apply atan_increasing.
  - rewrite atan_0; lra.
Qed.

Lemma atan2_bounds (y x : R) : - PI < atan2 y x <= PI.
Proof.
  pose proof PI_pos as HPI.
  pose proof (atan_bound (y / x)) as [Hlo Hhi].
  unfold atan2.
  destruct (Rlt_dec 0 x) as [Hx|Hx]; [lra|].
  destruct (Rlt_dec x 0) as [Hx'|Hx'].
  - destruct (Rle_dec 0 y) as [Hy|Hy].
    + assert (atan (y / x) <= 0).
      { apply atan_nonpos.
        unfold Rdiv. replace 0 with (y * 0) by ring.
        apply Rmult_le_compat_l; [assumption|].
        left; now apply Rinv_lt_0_compat. }
      lra.
    + assert (0 < atan (y / x)).
      { rewrite <- atan_0. apply atan_increasing.
        unfold Rdiv. replace (y * / x) with ((- y) * (- / x)) by ring.
        apply Rmult_lt_0_compat; [lra|].
        apply Ropp_0_gt_lt_contravar, Rinv_lt_0_compat; assumption. }
      lra.
  - destruct (Rlt_dec 0 y); [lra|].
    destruct (Rlt_dec y 0); lra.
Qed.

(** Shifting [atan2] by a full turn and reducing it modulo a full turn
    lands in the first turn. *)
Lemma normalized_atan2_range (y x : R) :
  0 <= fmod (atan2 y x + 2 * PI) (2 * PI) < 2 * PI.
Proof.
  pose proof PI_pos as HPI.
  pose proof (atan2_bounds y x) as Hb.
  apply fmod_range; lra.
Qed.

(** ** The Bearing Calculator *)

(** C9.  Bearing normalization: the bearing from any point to any point
    lies in the half-open interval from 0 to 2 PI. *)
Theorem calculateBearing_range (from to : LatLong) :
  0 <= calculateBearing from to < 2 * PI.
Proof.
  unfold calculateBearing; cbv zeta. apply normalized_atan2_range.
Qed.

(** ** The Bisector Classifier *)

Lemma angleDifference_range (bearing1 bearing2 : R) :
  0 <= bearing1 < 2 * PI -> 0 <= bearing2 < 2 * PI ->
  0 <= angleDifference bearing1 bearing2 < 2 * PI.
Proof.
  intros H1 H2; unfold angleDifference; cbv zeta.
  destruct (Rlt_dec (bearing2 - bearing1) 0); lra.
Qed.

(** C5.  Reflex correction.  With [bearing1] the bearing from [current] to
    [prev] and [bearing2] the bearing from [current] to [next], the turn
    [bearing2 - bearing1], increased by 2 PI when negative, lies in
    [0, 2 PI).  When it exceeds PI the final bisector bearing is the mean
    of the two bearings plus PI, reduced modulo 2 PI (so it differs from
    the mean by PI or by - PI); otherwise it is the mean.  In both cases it
    lies in [0, 2 PI). *)
Theorem bisectorBearing_reflex_correction (prev current next : LatLong) :
  let bearing1 := calculateBearing current prev in
  let bearing2 := calculateBearing current next in
  let mean := (bearing1 + bearing2) / 2 in
  let delta := angleDifference bearing1 bearing2 in
  let final := bisectorBearing prev current next in
  delta = (if Rlt_dec (bearing2 - bearing1) 0
           then bearing2 - bearing1 + 2 * PI else bearing2 - bearing1) /\
  0 <= delta < 2 * PI /\
  (delta > PI ->
     final = fmod (mean + PI) (2 * PI) /\
     (final = mean + PI \/ final = mean + PI - 2 * PI)) /\
  (~ delta > PI -> final = mean) /\
  0 <= final < 2 * PI.
Proof.
  intros bearing1 bearing2 mean delta final.
  pose proof PI_pos as HPI.
  assert (H1 : 0 <= bearing1 < 2 * PI) by apply normalized_atan2_range.
  assert (H2 : 0 <= bearing2 < 2 * PI) by apply normalized_atan2_range.
  assert (Hmean : 0 <= mean < 2 * PI) by (unfold mean; lra).
  assert (Hfinal : final =
    fmod (if Rgt_dec delta PI then mean + PI else mean) (2 * PI)) by reflexivity.
  split; [reflexivity|].
  split; [now apply angleDifference_range|].
  destruct (Rgt_dec delta PI) as [Hreflex|Hconvex].
  - assert (Hcases : final = mean + PI \/ final = mean + PI - 2 * PI).
    { rewrite Hfinal.
      destruct (Rlt_dec (mean + PI) (2 * PI)) as [Hlt|Hge].
      - left. apply fmod_small; lra.
      - right. apply fmod_second_period; lra. }
    repeat split; try tauto; try contradiction.
    + rewrite Hfinal. apply fmod_range; lra.
    + rewrite Hfinal. apply fmod_range; lra.
  - assert (Heq : final = mean) by (rewrite Hfinal; apply fmod_small; lra).
    repeat split; try contradiction; try tauto; lra.
Qed.

(** ** The Destination Projector *)

Lemma deg_rad_inverse (a : R) : a * RAD_TO_DEG * DEG_TO_RAD = a.
Proof. pose proof PI_pos. unfold RAD_TO_DEG, DEG_TO_RAD; field; lra. Qed.

Lemma rad_deg_inverse (a : R) : a * DEG_TO_RAD * RAD_TO_DEG = a.
Proof. pose proof PI_pos. unfold RAD_TO_DEG, DEG_TO_RAD; field; lra. Qed.

Lemma latitude_in_radians (lat : R) :
  -90 <= lat <= 90 -> - (PI / 2) <= lat * DEG_TO_RAD <= PI / 2.
Proof. intros H; pose proof PI_pos as HPI; unfold DEG_TO_RAD; nra. Qed.

Lemma atan2_zero_nonneg (x : R) : 0 <= x -> atan2 0 x = 0.
Proof.
  intros Hx; unfold atan2.
  destruct (Rlt_dec 0 x).
  - unfold Rdiv; rewrite Rmult_0_l; apply atan_0.
  - destruct (Rlt_dec x 0); [lra|].
    destruct (Rlt_dec 0 0); [lra|].
    destruct (Rlt_dec 0 0); [lra|reflexivity].
Qed.

(** The two arguments of [atan2] are the coordinates of a point at distance
    [sqrt (1 + (y / x)²)] times [|x|] from the origin. *)
Lemma norm_of_ratio (x y r : R) :
  x <> 0 -> 0 <= r -> r * r = x * x + y * y ->
  r = Rabs x * sqrt (1 + (y / x)²).
Proof.
  intros Hx Hr Hrr.
  assert (Hs : 0 <= 1 + (y / x)²) by (pose proof (Rle_0_sqr (y / x)); lra).
  apply Rsqr_inj.
  - assumption.
  - apply Rmult_le_pos; [apply Rabs_pos | apply sqrt_pos].
  - rewrite Rsqr_mult, <- Rsqr_abs, Rsqr_sqrt by assumption.
    unfold Rsqr in *. rewrite Hrr. field; assumption.
Qed.

(** [atan2 y x] is the angle whose cosine is [x] over the norm of [(x, y)]. *)
Lemma cos_atan2_scaled (y x r : R) :
  0 <= r -> r * r = x * x + y * y -> r * cos (atan2 y x) = x.
Proof.
  intros Hr Hrr. unfold atan2.
  assert (Hs : 0 < sqrt (1 + (y / x)²)).
  { apply sqrt_lt_R0. pose proof (Rle_0_sqr (y / x)); lra. }
  destruct (Rlt_dec 0 x) as [Hx|Hx].
  - rewrite cos_atan.
    rewrite (norm_of_ratio x y r) by (assumption || lra).
    rewrite Rabs_pos_eq by lra. field; lra.
  - destruct (Rlt_dec x 0) as [Hx'|Hx'].
    + assert (Hcos : forall t, cos (t - PI) = - cos t).
      { intros t. replace (t - PI) with (- (PI - t)) by ring.
        rewrite cos_neg. replace (PI - t) with (- t + PI) by ring.
        now rewrite neg_cos, cos_neg. }
      assert (Hr' : r = - x * sqrt (1 + (y / x)²)).
      { rewrite (norm_of_ratio x y r) at 1 by (assumption || lra).
        now rewrite Rabs_left by assumption. }
      destruct (Rle_dec 0 y).
      * rewrite neg_cos, cos_atan. rewrite Hr' at 1. field; lra.
      * rewrite Hcos, cos_atan. rewrite Hr' at 1. field; lra.
    + assert (x = 0) by lra; subst x.
      destruct (Rlt_dec 0 y); [rewrite cos_PI2; ring|].
      destruct (Rlt_dec y 0); [rewrite cos_neg, cos_PI2; ring|].
      assert (y = 0) by lra; subst y.
      assert (r = 0) by nra. subst r; ring.
Qed.

Section SphericalTriangle.

(** Sines and cosines of the start latitude, of the angular distance and of
    the bearing.  The sine of the destination latitude, as [movePoint]
    computes it, is [s1 * cd + c1 * sd * ct]. *)
Variables s1 c1 sd cd st ct : R.
Hypothesis latitude_circle : s1 * s1 + c1 * c1 = 1.
Hypothesis distance_circle : sd * sd + cd * cd = 1.
Hypothesis bearing_circle : st * st + ct * ct = 1.

Lemma destination_sine_bounds : -1 <= s1 * cd + c1 * sd * ct <= 1.
Proof.
  set (s2 := s1 * cd + c1 * sd * ct).
  assert (H : 1 - s2 * s2 =
              (c1 * cd - s1 * sd * ct) * (c1 * cd - s1 * sd * ct)
              + (st * sd) * (st * sd)) by (subst s2; nsatz).
  assert (Hsq : s2 * s2 <= 1).
  { pose proof (Rle_0_sqr (c1 * cd - s1 * sd * ct)) as Ha.
    pose proof (Rle_0_sqr (st * sd)) as Hb. unfold Rsqr in *; lra. }
  split; nra.
Qed.

Lemma destination_norm :
  let s2 := s1 * cd + c1 * sd * ct in
  (c1 * sqrt (1 - s2²)) * (c1 * sqrt (1 - s2²)) =
  (cd - s1 * s2) * (cd - s1 * s2) + (st * sd * c1) * (st * sd * c1).
Proof.
  intros s2.
  pose proof destination_sine_bounds as Hb. fold s2 in Hb.
  assert (Hpos : 0 <= 1 - s2²) by (unfold Rsqr; nra).
  replace (c1 * sqrt (1 - s2²) * (c1 * sqrt (1 - s2²)))
    with (c1 * c1 * (sqrt (1 - s2²))²) by (unfold Rsqr; ring).
  rewrite Rsqr_sqrt by assumption.
  unfold Rsqr; subst s2; nsatz.
Qed.

End SphericalTriangle.

(** The latitude [movePoint] returns, in radians: its sine and cosine. *)
Lemma movePoint_latitude (point : LatLong) (bearing distance : R) :
  let d := distance / EARTH_RADIUS in
  let lat1 := latitude point * DEG_TO_RAD in
  let s2 := sin lat1 * cos d + cos lat1 * sin d * cos bearing in
  latitude (movePoint point bearing distance) * DEG_TO_RAD = asin s2 /\
  sin (asin s2) = s2 /\ cos (asin s2) = sqrt (1 - s2²).
Proof.
  intros d lat1 s2.
  assert (Hb : -1 <= s2 <= 1).
  { apply (destination_sine_bounds (sin lat1) (cos lat1) (sin d) (cos d)
             (sin bearing) (cos bearing));
      apply sin2_cos2. }
  unfold movePoint; simpl. rewrite deg_rad_inverse.
  repeat split; [now apply sin_asin | now apply cos_asin].
Qed.

(** The central angle between a point and its projection: the spherical law
    of cosines gives back the cosine of [distance / EARTH_RADIUS]. *)
Lemma movePoint_central_angle (point : LatLong) (bearing distance : R) :
  -90 <= latitude point <= 90 ->
  let q := movePoint point bearing distance in
  let lat1 := latitude point * DEG_TO_RAD in
  let lat2 := latitude q * DEG_TO_RAD in
  let dLon := (longitude q - longitude point) * DEG_TO_RAD in
  sin lat1 * sin lat2 + cos lat1 * cos lat2 * cos dLon
  = cos (distance / EARTH_RADIUS).
Proof.
  intros Hlat q lat1 lat2 dLon.
  destruct (movePoint_latitude point bearing distance) as (Hlat2 & Hsin & Hcos).
  fold q lat1 in Hlat2, Hsin, Hcos.
  set (d := distance / EARTH_RADIUS) in *.
  set (s2 := sin lat1 * cos d + cos lat1 * sin d * cos bearing) in *.
  assert (Hc1 : 0 <= cos lat1).
  { apply cos_ge_0; apply latitude_in_radians in Hlat; tauto. }
  assert (HdLon : dLon =
    atan2 (sin bearing * sin d * cos lat1) (cos d - sin lat1 * sin (asin s2))).
  { unfold dLon, q, movePoint; simpl.
    fold lat1 d s2.
    pose proof PI_pos. unfold RAD_TO_DEG, DEG_TO_RAD. field; lra. }
  fold lat2 in Hlat2. rewrite Hlat2, HdLon, Hsin, Hcos.
  rewrite cos_atan2_scaled.
  - ring.
  - apply Rmult_le_pos; [assumption | apply sqrt_pos].
  - unfold s2.
    apply (destination_norm (sin lat1) (cos lat1) (sin d) (cos d)
             (sin bearing) (cos bearing));
      apply sin2_cos2.
Qed.

(** C8 asks that the great-circle distance from a point to its projection
    be the distance given, and that distance 0 give back the point.  The
    two lemmas that follow show it of the formulas evaluated over the real
    numbers.  The doubles of the source do not deliver it: near a pole the
    argument of [std::asin] can round above 1, and the result is NaN; and
    the conversions to radians and back do not round-trip exactly. *)
Lemma movePoint_distance_exact (point : LatLong) (bearing d : R) :
  -90 <= latitude point <= 90 ->
  0 <= d <= PI * EARTH_RADIUS ->
  greatCircleDistance point (movePoint point bearing d) = d.
Proof.
  intros Hlat Hd. unfold greatCircleDistance; cbv zeta.
  rewrite movePoint_central_angle by assumption.
  rewrite acos_cos.
  - unfold EARTH_RADIUS; field.
  - unfold EARTH_RADIUS in *; lra.
Qed.

Lemma movePoint_zero (point : LatLong) (bearing : R) :
  -90 <= latitude point <= 90 ->
  movePoint point bearing 0 = point.
Proof.
  intros Hlat. destruct point as [lat lon]; simpl in Hlat.
  unfold movePoint; simpl.
  replace (0 / EARTH_RADIUS) with 0 by (unfold EARTH_RADIUS; field).
  rewrite sin_0, cos_0.
  replace (sin (lat * DEG_TO_RAD) * 1 + cos (lat * DEG_TO_RAD) * 0 * cos bearing)
    with (sin (lat * DEG_TO_RAD)) by ring.
  rewrite asin_sin by now apply latitude_in_radians.
  replace (sin bearing * 0 * cos (lat * DEG_TO_RAD)) with 0 by ring.
  rewrite atan2_zero_nonneg.
  - rewrite Rplus_0_r. now rewrite !rad_deg_inverse.
  - pose proof (sin2_cos2 (lat * DEG_TO_RAD)) as Hsc.
    pose proof (Rle_0_sqr (cos (lat * DEG_TO_RAD))) as Hc.
    unfold Rsqr in *; lra.
Qed.

(** C10.  Output longitude out of range: from the point at latitude 0 and
    longitude 180, heading due east ([bearing = PI / 2]) for one Earth
    radius, [movePoint] returns the longitude [180 + 180 / PI], which is
    above 180: the sum [lon1 + atan2 ...] is turned into degrees as it is. *)
Theorem movePoint_longitude_above_180 :
  exists (point : LatLong) (bearing distance : R),
    -90 <= latitude point <= 90 /\
    -180 <= longitude point <= 180 /\
    0 < distance /\
    longitude (movePoint point bearing distance) = 180 + 180 / PI /\
    180 < longitude (movePoint point bearing distance).
Proof.
  exists (MkLatLong 0 180), (PI / 2), EARTH_RADIUS.
  pose proof PI_pos as HPI. pose proof PI2_1 as HPI2.
  assert (Hlon : longitude (movePoint (MkLatLong 0 180) (PI / 2) EARTH_RADIUS)
                 = 180 + 180 / PI).
  { unfold movePoint; simpl.
    replace (EARTH_RADIUS / EARTH_RADIUS) with 1 by (unfold EARTH_RADIUS; field).
    replace (0 * DEG_TO_RAD) with 0 by ring.
    rewrite sin_0, cos_0, sin_PI2, cos_PI2.
    replace (0 * cos 1 + 1 * sin 1 * 0) with 0 by ring.
    rewrite asin_0, sin_0.
    replace (1 * sin 1 * 1) with (sin 1) by ring.
    replace (cos 1 - 0 * 0) with (cos 1) by ring.
    assert (Hcos : 0 < cos 1) by (apply cos_gt_0; lra).
    assert (Hatan : atan2 (sin 1) (cos 1) = 1).
    { unfold atan2. destruct (Rlt_dec 0 (cos 1)); [|contradiction].
      change (sin 1 / cos 1) with (tan 1). apply atan_tan; lra. }
    rewrite Hatan. unfold DEG_TO_RAD, RAD_TO_DEG; field; lra. }
  split; [simpl; lra|].
  split; [simpl; lra|].
  split; [unfold EARTH_RADIUS; lra|].
  split; [exact Hlon|].
  rewrite Hlon.
  assert (0 < 180 / PI) by (apply Rdiv_lt_0_compat; lra). lra.
Qed.

(** ** The value handed from the classifier to the projector *)

(** From the origin, the point on the equator at longitude 90 lies due
    east. *)
Lemma calculateBearing_due_east :
  calculateBearing (MkLatLong 0 0) (MkLatLong 0 90) = PI / 2.
Proof.
  pose proof PI_pos as HPI.
  unfold calculateBearing; simpl.
  replace ((90 - 0) * DEG_TO_RAD) with (PI / 2) by (unfold DEG_TO_RAD; field).
  replace (0 * DEG_TO_RAD) with 0 by ring.
  rewrite sin_0, cos_0, sin_PI2, cos_PI2.
  replace (1 * 1) with 1 by ring.
  replace (1 * 0 - 0 * 1 * 0) with 0 by ring.
  assert (Hatan : atan2 1 0 = PI / 2).
  { unfold atan2. destruct (Rlt_dec 0 0); [lra|].
    destruct (Rlt_dec 0 1); [reflexivity|lra]. }
  rewrite Hatan, fmod_second_period; lra.
Qed.

(** From the origin, the pole lies due north. *)
Lemma calculateBearing_due_north :
  calculateBearing (MkLatLong 0 0) (MkLatLong 90 0) = 0.
Proof.
  pose proof PI_pos as HPI.
  unfold calculateBearing; simpl.
  replace (90 * DEG_TO_RAD) with (PI / 2) by (unfold DEG_TO_RAD; field).
  replace ((0 - 0) * DEG_TO_RAD) with 0 by ring.
  replace (0 * DEG_TO_RAD) with 0 by ring.
  rewrite sin_0, cos_0, sin_PI2, cos_PI2.
  replace (0 * 0) with 0 by ring.
  replace (1 * 1 - 0 * 0 * 1) with 1 by ring.
  rewrite atan2_zero_nonneg by lra.
  rewrite fmod_second_period; lra.
Qed.

(** C6.  What [calculateAngleBisector] returns.  The claim asks for one
    scalar bearing, handed as it is to [movePoint].  The function returns a
    [LatLong] holding the cosine and the sine of the bisector bearing, a
    point of the unit circle.  At the vertex [(0, 0)] between [(0, 90)] and
    [(90, 0)] the bisector bearing is [5 PI / 4] and the value returned is
    the pair [(- 1 / sqrt 2, - 1 / sqrt 2)]. *)
Theorem calculateAngleBisector_returns_unit_vector :
  (forall prev current next : LatLong,
     let b := calculateAngleBisector prev current next in
     latitude b = cos (bisectorBearing prev current next) /\
     longitude b = sin (bisectorBearing prev current next) /\
     (latitude b)² + (longitude b)² = 1) /\
  bisectorBearing (MkLatLong 0 90) (MkLatLong 0 0) (MkLatLong 90 0)
    = 5 * PI / 4 /\
  calculateAngleBisector (MkLatLong 0 90) (MkLatLong 0 0) (MkLatLong 90 0)
    = MkLatLong (- (1 / sqrt 2)) (- (1 / sqrt 2)).
Proof.
  pose proof PI_pos as HPI.
  assert (Hb : bisectorBearing (MkLatLong 0 90) (MkLatLong 0 0) (MkLatLong 90 0)
               = 5 * PI / 4).
  { unfold bisectorBearing; cbv zeta.
    rewrite calculateBearing_due_east, calculateBearing_due_north.
    unfold angleDifference; cbv zeta.
    destruct (Rlt_dec (0 - PI / 2) 0) as [_|N]; [|lra].
    destruct (Rgt_dec (0 - PI / 2 + 2 * PI) PI) as [_|N]; [|lra].
    rewrite fmod_small; lra. }
  split; [|split].
  - intros prev current next b; subst b; simpl.
    repeat split. rewrite Rplus_comm. apply sin2_cos2.
  - exact Hb.
  - unfold calculateAngleBisector; cbv zeta. rewrite Hb.
    replace (5 * PI / 4) with (PI / 4 + PI) by field.
    now rewrite neg_cos, neg_sin, cos_PI4, sin_PI4.
Qed.

(** * Further properties of the geodesic primitives *)

(** ** More on [atan2] *)

(** [atan2 y x] is the angle whose sine is [y] over the norm of [(x, y)]. *)
Lemma sin_atan2_scaled (y x r : R) :
  0 <= r -> r * r = x * x + y * y -> r * sin (atan2 y x) = y.
Proof.
  intros Hr Hrr. unfold atan2.
  assert (Hs : 0 < sqrt (1 + (y / x)²)).
  { apply sqrt_lt_R0. pose proof (Rle_0_sqr (y / x)); lra. }
  destruct (Rlt_dec 0 x) as [Hx|Hx].
  - rewrite sin_atan.
    rewrite (norm_of_ratio x y r) by (assumption || lra).
    rewrite Rabs_pos_eq by lra. field; lra.
  - destruct (Rlt_dec x 0) as [Hx'|Hx'].
    + assert (Hsin : forall t, sin (t - PI) = - sin t).
      { intros t. rewrite sin_minus, cos_PI, sin_PI; ring. }
      assert (Hr' : r = - x * sqrt (1 + (y / x)²)).
      { rewrite (norm_of_ratio x y r) at 1 by (assumption || lra).
        now rewrite Rabs_left by assumption. }
      destruct (Rle_dec 0 y).
      * rewrite neg_sin, sin_atan. rewrite Hr' at 1. field; lra.
      * rewrite Hsin, sin_atan. rewrite Hr' at 1. field; lra.
    + assert (x = 0) by lra; subst x.
      destruct (Rlt_dec 0 y); [rewrite sin_PI2; nra|].
      destruct (Rlt_dec y 0); [rewrite sin_neg, sin_PI2; nra|].
      assert (y = 0) by lra; subst y.
      assert (r = 0) by nra. subst r; ring.
Qed.

(** An angle of [(-PI, PI]] is determined by its cosine and its sine. *)
Lemma angle_unique (a b : R) :
  - PI < a <= PI -> - PI < b <= PI ->
  cos a = cos b -> sin a = sin b -> a = b.
Proof.
  intros Ha Hb Hcos Hsin.
  pose proof PI_pos as HPI.
  pose proof (sin2_cos2 b) as Hb1; unfold Rsqr in Hb1.
  assert (Hc : cos (a - b) = 1) by (rewrite cos_minus, Hcos, Hsin; lra).
  assert (Hs : sin (a - b) = 0) by (rewrite sin_minus, Hcos, Hsin; ring).
  destruct (sin_eq_0_0 _ Hs) as [k Hk].
  assert (Hk1 : (-2 < k < 2)%Z).
  { split; apply lt_IZR.
    - apply Rmult_lt_reg_r with PI; [assumption|]. rewrite <- Hk; lra.
    - apply Rmult_lt_reg_r with PI; [assumption|]. rewrite <- Hk; lra. }
  assert (Hk0 : k = 0%Z \/ k = 1%Z \/ k = (-1)%Z) by lia.
  destruct Hk0 as [-> | [-> | ->]].
  - lra.
  - rewrite Hk, Rmult_1_l, cos_PI in Hc; lra.
  - replace (-1 * PI) with (- PI) in Hk by ring.
    rewrite Hk, cos_neg, cos_PI in Hc; lra.
Qed.

(** [atan2] recovers the angle of a point given in polar form. *)
Lemma atan2_polar (k t : R) :
  0 < k -> - PI < t <= PI -> atan2 (k * sin t) (k * cos t) = t.
Proof.
  intros Hk Ht.
  pose proof (sin2_cos2 t) as H1; unfold Rsqr in H1.
  assert (Hnorm : k * k = k * cos t * (k * cos t) + k * sin t * (k * sin t)) by nra.
  apply angle_unique; [apply atan2_bounds | assumption | |].
  - apply Rmult_eq_reg_l with k; [|lra].
    apply cos_atan2_scaled; [lra | assumption].
  - apply Rmult_eq_reg_l with k; [|lra].
    apply sin_atan2_scaled; [lra | assumption].
Qed.

(** ** [movePoint]: the longitude it adds *)

(** The longitude [movePoint] adds, in radians. *)
Lemma movePoint_longitude_shift (point : LatLong) (bearing distance : R) :
  let d := distance / EARTH_RADIUS in
  let lat1 := latitude point * DEG_TO_RAD in
  let s2 := sin lat1 * cos d + cos lat1 * sin d * cos bearing in
  (longitude (movePoint point bearing distance) - longitude point) * DEG_TO_RAD
  = atan2 (sin bearing * sin d * cos lat1) (cos d - sin lat1 * s2).
Proof.
  intros d lat1 s2.
  destruct (movePoint_latitude point bearing distance) as (_ & Hsin & _).
  fold d lat1 s2 in Hsin.
  unfold movePoint; simpl. fold lat1 d s2. rewrite Hsin.
  pose proof PI_pos. unfold RAD_TO_DEG, DEG_TO_RAD. field; lra.
Qed.

(** ** [calculateBearing]: degenerate and special directions *)




(** ** [movePoint] and [calculateBearing] together *)

(** The two arguments [calculateBearing] gives to [atan2] when it looks
    from a point to its projection: the sine of the angular distance times
    the sine and the cosine of the bearing [movePoint] was given. *)
Lemma bearing_arguments_of_projection (point : LatLong) (bearing distance : R) :
  -90 < latitude point < 90 ->
  let q := movePoint point bearing distance in
  let d := distance / EARTH_RADIUS in
  let dLon := (longitude q - longitude point) * DEG_TO_RAD in
  let lat1 := latitude point * DEG_TO_RAD in
  let lat2 := latitude q * DEG_TO_RAD in
  sin dLon * cos lat2 = sin d * sin bearing /\
  cos lat1 * sin lat2 - sin lat1 * cos lat2 * cos dLon = sin d * cos bearing.
Proof.
  intros Hlat q d dLon lat1 lat2.
  pose proof PI_pos as HPI.
  destruct (movePoint_latitude point bearing distance) as (Hlat2 & Hsin & Hcos).
  pose proof (movePoint_longitude_shift point bearing distance) as Hshift.
  cbv zeta in Hshift.
  fold q d lat1 in Hlat2, Hsin, Hcos, Hshift. fold lat2 in Hlat2. fold dLon in Hshift.
  set (s2 := sin lat1 * cos d + cos lat1 * sin d * cos bearing) in *.
  assert (Hc1 : 0 < cos lat1).
  { apply cos_gt_0; unfold lat1, DEG_TO_RAD; nra. }
  assert (Hnorm :
    cos lat1 * sqrt (1 - s2²) * (cos lat1 * sqrt (1 - s2²)) =
    (cos d - sin lat1 * s2) * (cos d - sin lat1 * s2)
    + sin bearing * sin d * cos lat1 * (sin bearing * sin d * cos lat1)).
  { unfold s2.
    apply (destination_norm (sin lat1) (cos lat1) (sin d) (cos d)
             (sin bearing) (cos bearing)); apply sin2_cos2. }
  assert (Hr : 0 <= cos lat1 * sqrt (1 - s2²))
    by (apply Rmult_le_pos; [lra | apply sqrt_pos]).
  pose proof (cos_atan2_scaled _ _ _ Hr Hnorm) as HcosA.
  pose proof (sin_atan2_scaled _ _ _ Hr Hnorm) as HsinA.
  rewrite <- Hshift in HcosA, HsinA.
  rewrite Hlat2, Hsin, Hcos.
  pose proof (sin2_cos2 lat1) as Hcircle; unfold Rsqr in Hcircle.
  split.
  - apply Rmult_eq_reg_l with (cos lat1); [|lra].
    transitivity (cos lat1 * sqrt (1 - s2²) * sin dLon); [ring|].
    rewrite HsinA; ring.
  - apply Rmult_eq_reg_l with (cos lat1); [|lra].
    transitivity (cos lat1 * cos lat1 * s2
                  - sin lat1 * (cos lat1 * sqrt (1 - s2²) * cos dLon)); [ring|].
    rewrite HcosA. unfold s2.
    replace (cos lat1 * cos lat1) with (1 - sin lat1 * sin lat1) by lra.
    ring_simplify.
    replace (sin lat1 ^ 2) with (1 - cos lat1 * cos lat1) by (simpl; lra).
    ring.
Qed.

(** X2.  Looking back from the start: for a distance of at least a
    kilometre that keeps the whole way a degree or more from both poles, and
    for any bearing, the bearing from a point to its projection points the
    way the projection was made: it has the cosine and the sine of the
    bearing given, and lies in [0, 2 PI).  (Closer to a pole the doubles of
    the source can leave the domain of [std::asin]; over shorter distances
    they cannot tell the two points apart well enough.) *)
Theorem calculateBearing_of_movePoint (point : LatLong) (bearing distance : R) :
  1000 <= distance ->
  -89 <= latitude point - distance / EARTH_RADIUS * RAD_TO_DEG ->
  latitude point + distance / EARTH_RADIUS * RAD_TO_DEG <= 89 ->
  let back := calculateBearing point (movePoint point bearing distance) in
  0 <= back < 2 * PI /\
  cos back = cos bearing /\
  sin back = sin bearing.
Proof.
  intros Hd Hlo Hhi back.
  pose proof PI_pos as HPI.
  set (d := distance / EARTH_RADIUS) in *.
  assert (Hd0 : 0 < d).
  { unfold d, EARTH_RADIUS. apply Rdiv_lt_0_compat; lra. }
  assert (Hdeg : 0 < d * RAD_TO_DEG).
  { unfold RAD_TO_DEG. apply Rmult_lt_0_compat; [assumption|].
    apply Rdiv_lt_0_compat; lra. }
  assert (Hlat : -90 < latitude point < 90) by lra.
  assert (HdPI : d < PI).
  { rewrite <- (deg_rad_inverse d). unfold DEG_TO_RAD.
    assert (d * RAD_TO_DEG <= 89) by lra. nra. }
  assert (Hsd : 0 < sin d) by (apply sin_gt_0; assumption).
  destruct (bearing_arguments_of_projection point bearing distance Hlat)
    as [Hy Hx].
  fold d in Hy, Hx.
  assert (Hback : back =
    fmod (atan2 (sin d * sin bearing) (sin d * cos bearing) + 2 * PI) (2 * PI)).
  { unfold back, calculateBearing; cbv zeta. now rewrite Hy, Hx. }
  split; [rewrite Hback; apply normalized_atan2_range|].
  pose proof (atan2_bounds (sin d * sin bearing) (sin d * cos bearing)) as Ha.
  pose proof (sin2_cos2 bearing) as Hcircle; unfold Rsqr in Hcircle.
  assert (Hnorm : sin d * sin d =
                  sin d * cos bearing * (sin d * cos bearing)
                  + sin d * sin bearing * (sin d * sin bearing)) by nra.
  assert (Hcos : cos (atan2 (sin d * sin bearing) (sin d * cos bearing))
                 = cos bearing).
  { apply Rmult_eq_reg_l with (sin d); [|lra].
    apply cos_atan2_scaled; [lra | assumption]. }
  assert (Hsin : sin (atan2 (sin d * sin bearing) (sin d * cos bearing))
                 = sin bearing).
  { apply Rmult_eq_reg_l with (sin d); [|lra].
    apply sin_atan2_scaled; [lra | assumption]. }
  set (a := atan2 (sin d * sin bearing) (sin d * cos bearing)) in *.
  destruct (Rlt_dec a 0) as [Hneg|Hpos].
  - rewrite Hback, fmod_small by lra.
    rewrite cos_plus, sin_plus, cos_2PI, sin_2PI, Hcos, Hsin. split; ring.
  - rewrite Hback, fmod_second_period by lra.
    replace (a + 2 * PI - 2 * PI) with a by ring. now split.
Qed.

Lemma calculateBearing_of_movePoint_witness :
  let back :=
    calculateBearing (MkLatLong 45 170) (movePoint (MkLatLong 45 170) 1 1000) in
  0 <= back < 2 * PI /\ cos back = cos 1 /\ sin back = sin 1.
Proof.
  apply (calculateBearing_of_movePoint (MkLatLong 45 170) 1 1000).
  - lra.
  - simpl. unfold EARTH_RADIUS, RAD_TO_DEG.
    pose proof PI2_1.
    assert (0 < 180 / PI < 90).
    { split; [apply Rdiv_lt_0_compat; lra|].
      apply Rmult_lt_reg_r with PI; [lra|].
      unfold Rdiv; rewrite Rmult_assoc, Rinv_l by lra. lra. }
    lra.
  - simpl. unfold EARTH_RADIUS, RAD_TO_DEG.
    pose proof PI2_1.
    assert (0 < 180 / PI < 90).
    { split; [apply Rdiv_lt_0_compat; lra|].
      apply Rmult_lt_reg_r with PI; [lra|].
      unfold Rdiv; rewrite Rmult_assoc, Rinv_l by lra. lra. }
    lra.
Defined.

(** X3.  Heading due north ([bearing = 0]) from a latitude of -89 degrees or
    more to one of 89 degrees or less, [movePoint] keeps the longitude and
    adds to the latitude the angular distance [distance / EARTH_RADIUS],
    turned into degrees.  (Within a degree of the poles the doubles of the
    source can leave the domain of [std::asin], or take the meridian on
    the other side.) *)
Theorem movePoint_due_north (point : LatLong) (distance : R) :
  -89 <= latitude point ->
  0 <= distance ->
  latitude point + distance / EARTH_RADIUS * RAD_TO_DEG <= 89 ->
  movePoint point 0 distance =
  MkLatLong (latitude point + distance / EARTH_RADIUS * RAD_TO_DEG)
            (longitude point).
Proof.
  intros Hlo Hd Hhi.
  pose proof PI_pos as HPI.
  destruct point as [lat lon]; simpl in *.
  set (d := distance / EARTH_RADIUS) in *.
  assert (Hd0 : 0 <= d).
  { unfold d, EARTH_RADIUS. apply Rmult_le_pos; [assumption|].
    left; apply Rinv_0_lt_compat; lra. }
  assert (Hdeg : 0 <= d * RAD_TO_DEG).
  { unfold RAD_TO_DEG. apply Rmult_le_pos; [assumption|].
    apply Rmult_le_pos; [lra|]. left; now apply Rinv_0_lt_compat. }
  assert (Hsum : lat * DEG_TO_RAD + d = (lat + d * RAD_TO_DEG) * DEG_TO_RAD)
    by (rewrite Rmult_plus_distr_r, deg_rad_inverse; ring).
  assert (Hrange : - (PI / 2) <= lat * DEG_TO_RAD + d <= PI / 2).
  { rewrite Hsum. apply latitude_in_radians; lra. }
  assert (Hrange1 : - (PI / 2) <= lat * DEG_TO_RAD <= PI / 2)
    by (apply latitude_in_radians; lra).
  unfold movePoint; simpl. fold d.
  rewrite sin_0, cos_0.
  replace (sin (lat * DEG_TO_RAD) * cos d + cos (lat * DEG_TO_RAD) * sin d * 1)
    with (sin (lat * DEG_TO_RAD + d)) by (rewrite sin_plus; ring).
  rewrite asin_sin by assumption.
  replace (0 * sin d * cos (lat * DEG_TO_RAD)) with 0 by ring.
  rewrite atan2_zero_nonneg.
  - f_equal.
    + rewrite Rmult_plus_distr_r, rad_deg_inverse; ring.
    + rewrite Rplus_0_r; apply rad_deg_inverse.
  - replace (cos d) with (cos (lat * DEG_TO_RAD + d - lat * DEG_TO_RAD))
      by (f_equal; ring).
    rewrite cos_minus.
    pose proof (cos_ge_0 (lat * DEG_TO_RAD + d) (proj1 Hrange) (proj2 Hrange)).
    pose proof (cos_ge_0 (lat * DEG_TO_RAD) (proj1 Hrange1) (proj2 Hrange1)).
    nra.
Qed.

Lemma movePoint_due_north_witness :
  movePoint (MkLatLong 10 20) 0 1000 =
  MkLatLong (10 + 1000 / EARTH_RADIUS * RAD_TO_DEG) 20.
Proof.
  apply (movePoint_due_north (MkLatLong 10 20) 1000).
  - simpl; lra.
  - lra.
  - simpl. unfold EARTH_RADIUS, RAD_TO_DEG.
    pose proof PI2_1.
    assert (0 < 180 / PI < 90).
    { split; [apply Rdiv_lt_0_compat; lra|].
      apply Rmult_lt_reg_r with PI; [lra|].
      unfold Rdiv; rewrite Rmult_assoc, Rinv_l by lra. lra. }
    lra.
Defined.

(** ** [calculateAngleBisector]: dependence on the order of the neighbours *)

Lemma angleDifference_reversed (bearing1 bearing2 : R) :
  bearing1 <> bearing2 ->
  angleDifference bearing2 bearing1 = 2 * PI - angleDifference bearing1 bearing2.
Proof.
  intros Hne; unfold angleDifference; cbv zeta.
  destruct (Rlt_dec (bearing2 - bearing1) 0), (Rlt_dec (bearing1 - bearing2) 0); lra.
Qed.

(** X8.  Exchanging [prev] and [next], that is walking the polygon the other way
    round, turns the bisector bearing by half a turn, unless the two edges
    leave the vertex in the same or in opposite directions. *)
Theorem bisectorBearing_reversed (prev current next : LatLong) :
  let bearing1 := calculateBearing current prev in
  let bearing2 := calculateBearing current next in
  bearing1 <> bearing2 ->
  angleDifference bearing1 bearing2 <> PI ->
  bisectorBearing next current prev =
  fmod (bisectorBearing prev current next + PI) (2 * PI).
Proof.
  intros bearing1 bearing2 Hne Hflat.
  pose proof PI_pos as HPI.
  assert (H1 : 0 <= bearing1 < 2 * PI) by apply normalized_atan2_range.
  assert (H2 : 0 <= bearing2 < 2 * PI) by apply normalized_atan2_range.
  pose proof (angleDifference_range bearing1 bearing2 H1 H2) as Hd.
  pose proof (angleDifference_reversed bearing1 bearing2 Hne) as Hrev.
  unfold bisectorBearing; cbv zeta. fold bearing1 bearing2.
  replace ((bearing2 + bearing1) / 2) with ((bearing1 + bearing2) / 2) by lra.
  set (mean := (bearing1 + bearing2) / 2).
  assert (Hmean : 0 <= mean < 2 * PI) by (unfold mean; lra).
  destruct (Rgt_dec (angleDifference bearing1 bearing2) PI) as [Hreflex|Hconvex];
    destruct (Rgt_dec (angleDifference bearing2 bearing1) PI) as [Hreflex'|Hconvex'];
    try lra.
  - rewrite (fmod_small mean) by lra.
    destruct (Rlt_dec (mean + PI) (2 * PI)).
    + rewrite (fmod_small (mean + PI)) by lra.
      rewrite fmod_second_period; lra.
    + rewrite (fmod_second_period (mean + PI)) by lra.
      replace (mean + PI - 2 * PI + PI) with mean by ring.
      rewrite fmod_small; lra.
  - now rewrite (fmod_small mean) by lra.
Qed.

Lemma bisectorBearing_reversed_witness :
  bisectorBearing (MkLatLong 90 0) (MkLatLong 0 0) (MkLatLong 0 90) =
  fmod (bisectorBearing (MkLatLong 0 90) (MkLatLong 0 0) (MkLatLong 90 0) + PI)
       (2 * PI).
Proof.
  apply (bisectorBearing_reversed (MkLatLong 0 90) (MkLatLong 0 0) (MkLatLong 90 0)).
  - rewrite calculateBearing_due_east, calculateBearing_due_north.
    pose proof PI_pos; lra.
  - rewrite calculateBearing_due_east, calculateBearing_due_north.
    unfold angleDifference; cbv zeta. pose proof PI_pos.
    destruct (Rlt_dec (0 - PI / 2) 0); lra.
Defined.

(** X9.  When both neighbours lie in the same direction (in particular when
    [prev] and [next] are the same point), the bisector bearing is that
    direction: the offset runs along the edge. *)
Theorem bisectorBearing_same_direction (prev current next : LatLong) :
  calculateBearing current prev = calculateBearing current next ->
  bisectorBearing prev current next = calculateBearing current next.
Proof.
  intros Heq.
  pose proof PI_pos as HPI.
  assert (H2 : 0 <= calculateBearing current next < 2 * PI)
    by apply normalized_atan2_range.
  unfold bisectorBearing; cbv zeta. rewrite Heq.
  unfold angleDifference; cbv zeta.
  destruct (Rlt_dec (calculateBearing current next - calculateBearing current next) 0);
    [lra|].
  destruct (Rgt_dec (calculateBearing current next - calculateBearing current next) PI);
    [lra|].
  rewrite fmod_small; lra.
Qed.

Lemma bisectorBearing_same_direction_witness :
  bisectorBearing (MkLatLong 0 90) (MkLatLong 0 0) (MkLatLong 0 90) =
  calculateBearing (MkLatLong 0 0) (MkLatLong 0 90).
Proof.
  apply (bisectorBearing_same_direction
           (MkLatLong 0 90) (MkLatLong 0 0) (MkLatLong 0 90)).
  reflexivity.
Defined.

(** ** Bearings along the equator *)

(** X7.  Along the equator the bearing is PI / 2 (east) towards a longitude up
    to 180 degrees higher and 3 PI / 2 (west) towards one up to 180 degrees
    lower. *)
Theorem calculateBearing_along_equator (lon1 lon2 : R) :
  (0 < lon2 - lon1 < 180 ->
   calculateBearing (MkLatLong 0 lon1) (MkLatLong 0 lon2) = PI / 2) /\
  (-180 < lon2 - lon1 < 0 ->
   calculateBearing (MkLatLong 0 lon1) (MkLatLong 0 lon2) = 3 * PI / 2).
Proof.
  pose proof PI_pos as HPI.
  assert (Hb : calculateBearing (MkLatLong 0 lon1) (MkLatLong 0 lon2) =
               fmod (atan2 (sin ((lon2 - lon1) * DEG_TO_RAD)) 0 + 2 * PI) (2 * PI)).
  { unfold calculateBearing; simpl.
    replace (0 * DEG_TO_RAD) with 0 by ring.
    rewrite sin_0, cos_0. f_equal. f_equal. f_equal; ring. }
  rewrite Hb. unfold atan2.
  destruct (Rlt_dec 0 0) as [F|_]; [lra|].
  split; intros Hd.
  - assert (0 < sin ((lon2 - lon1) * DEG_TO_RAD))
      by (apply sin_gt_0; unfold DEG_TO_RAD; nra).
    destruct (Rlt_dec 0 (sin ((lon2 - lon1) * DEG_TO_RAD))); [|lra].
    rewrite fmod_second_period; lra.
  - assert (sin ((lon2 - lon1) * DEG_TO_RAD) < 0).
    { rewrite <- (Ropp_involutive ((lon2 - lon1) * DEG_TO_RAD)), sin_neg.
      apply Ropp_lt_gt_0_contravar, sin_gt_0; unfold DEG_TO_RAD; nra. }
    destruct (Rlt_dec 0 (sin ((lon2 - lon1) * DEG_TO_RAD))); [lra|].
    destruct (Rlt_dec (sin ((lon2 - lon1) * DEG_TO_RAD)) 0); [|lra].
    rewrite fmod_small; lra.
Qed.

Lemma calculateBearing_along_equator_witness :
  calculateBearing (MkLatLong 0 10) (MkLatLong 0 30) = PI / 2 /\
  calculateBearing (MkLatLong 0 30) (MkLatLong 0 10) = 3 * PI / 2.
Proof.
  split.
  - apply (calculateBearing_along_equator 10 30); lra.
  - apply (calculateBearing_along_equator 30 10); lra.
Defined.

(** * Further properties of [enlarge] *)

Lemma enlarge_appends_after_leftover_witness :
  let p := {| vertices := triangle; enlargedVertices := [MkLatLong 5 5] |} in
  let out := enlargedVertices (enlarge first_component 1 p) in
  length out = 4%nat /\
  vector_at out 3 = enlargedVertex first_component triangle 1 2.
Proof.
  apply (enlarge_appends_after_leftover first_component 1
           {| vertices := triangle; enlargedVertices := [MkLatLong 5 5] |} 2).
  - simpl; lia.
  - lra.
  - simpl; lia.
Defined.

(** X11.  After a call with distance 0 on a polygon of at least 3 vertices the
    object holds no vertices any more, so every later call, at whatever
    distance, returns at once and changes nothing. *)
Theorem enlarge_after_zero_is_inert
  (bearing_of_bisector : LatLong -> R) (distance : R) (p : Polygon) :
  (3 <= length (vertices p))%nat ->
  vertices (enlarge bearing_of_bisector 0 p) = [] /\
  enlarge bearing_of_bisector distance (enlarge bearing_of_bisector 0 p)
  = enlarge bearing_of_bisector 0 p.
Proof.
  intros Hn. rewrite enlarge_zero by assumption.
  split; [reflexivity|].
  apply enlarge_small; simpl; lia.
Qed.

Lemma enlarge_after_zero_is_inert_witness :
  vertices (enlarge first_component 0 (newPolygon triangle)) = [] /\
  enlarge first_component 7 (enlarge first_component 0 (newPolygon triangle))
  = enlarge first_component 0 (newPolygon triangle).
Proof.
  apply (enlarge_after_zero_is_inert first_component 7 (newPolygon triangle)).
  simpl; lia.
Defined.

Lemma concat_repeat_comm {A : Type} (l : list A) (k : nat) :
  concat (repeat l k) ++ l = l ++ concat (repeat l k).
Proof.
  induction k as [|k IH]; simpl.
  - now rewrite app_nil_r.
  - now rewrite <- app_assoc, IH.
Qed.

(** X12.  [k] calls in a row with the same nonzero distance, on a polygon of
    [n >= 3] vertices whose output was empty, leave the vertices as they
    were and [k] copies of the one-call result in the output, [k * n]
    entries. *)
Theorem enlarge_repeated
  (bearing_of_bisector : LatLong -> R) (vs : list LatLong) (distance : R)
  (k : nat) :
  (3 <= length vs)%nat ->
  distance <> 0 ->
  let once := enlargedVertices (enlarge bearing_of_bisector distance (newPolygon vs)) in
  let p := Nat.iter k (enlarge bearing_of_bisector distance) (newPolygon vs) in
  vertices p = vs /\
  enlargedVertices p = concat (repeat once k) /\
  length (enlargedVertices p) = (k * length vs)%nat.
Proof.
  intros Hn Hd once p.
  assert (Honce : once =
    map (fun i => enlargedVertex bearing_of_bisector vs distance (Z.of_nat i))
        (seq 0 (length vs))).
  { unfold once. now rewrite enlarge_general by assumption. }
  assert (Hlen : length once = length vs)
    by (rewrite Honce; now rewrite length_map, length_seq).
  assert (Hp : vertices p = vs /\ enlargedVertices p = concat (repeat once k)).
  { subst p. induction k as [|k [IHv IHe]]; simpl.
    - split; reflexivity.
    - rewrite enlarge_general by (rewrite ?IHv; assumption).
      simpl. rewrite IHv, IHe, <- Honce.
      split; [reflexivity | apply concat_repeat_comm]. }
  destruct Hp as [Hv He].
  repeat split; try assumption.
  rewrite He. clear He Hv p.
  induction k as [|k IH]; simpl; [reflexivity|].
  rewrite length_app, IH, Hlen; lia.
Qed.

Lemma enlarge_repeated_witness :
  let once := enlargedVertices (enlarge first_component 1 (newPolygon triangle)) in
  let p := Nat.iter 3 (enlarge first_component 1) (newPolygon triangle) in
  vertices p = triangle /\
  enlargedVertices p = concat (repeat once 3) /\
  length (enlargedVertices p) = 9%nat.
Proof.
  apply (enlarge_repeated first_component triangle 1 3).
  - simpl; lia.
  - lra.
Defined.

(** * Properties of the demonstration program *)

(** ** [trim] *)

Lemma find_last_none (s : string) :
  find_last_not_of s whitespace = None <-> all_whitespace s = true.
Proof.
  induction s as [|c s IH];
    cbn [find_last_not_of find_first_not_of all_whitespace].
  - tauto.
  - destruct (find_last_not_of s whitespace) as [i|].
    + split; [discriminate|].
      intros H; apply andb_true_iff in H as [_ H].
      apply IH in H; discriminate.
    + destruct (contains whitespace c); simpl.
      * split; intros _; [now apply IH | reflexivity].
      * split; discriminate.
Qed.

Lemma find_first_none (s : string) :
  find_first_not_of s whitespace = None <-> all_whitespace s = true.
Proof.
  induction s as [|c s IH];
    cbn [find_last_not_of find_first_not_of all_whitespace].
  - tauto.
  - destruct (contains whitespace c); simpl.
    + destruct (find_first_not_of s whitespace); simpl.
      * split; [discriminate|]. intros H; apply IH in H; discriminate.
      * split; intros _; [now apply IH | reflexivity].
    + split; discriminate.
Qed.

(** When the first search finds a position, so does the last, and not a
    smaller one. *)
Lemma find_last_after_first (s : string) (start : nat) :
  find_first_not_of s whitespace = Some start ->
  exists end_, find_last_not_of s whitespace = Some end_ /\ (start <= end_)%nat.
Proof.
  revert start; induction s as [|c s IH];
    cbn [find_last_not_of find_first_not_of]; intros start H.
  - discriminate.
  - destruct (contains whitespace c).
    + destruct (find_first_not_of s whitespace) as [i|]; [|discriminate].
      injection H as <-.
      destruct (IH i eq_refl) as (e & -> & Hle).
      exists (S e); split; [reflexivity | lia].
    + injection H as <-.
      destruct (find_last_not_of s whitespace) as [i|].
      * exists (S i); split; [reflexivity | lia].
      * exists 0%nat; split; [reflexivity | lia].
Qed.

Lemma trim_cons_whitespace (c : ascii) (s : string) :
  contains whitespace c = true -> trim (String c s) = trim s.
Proof.
  intros Hc; unfold trim, substr; cbn [find_first_not_of find_last_not_of].
  rewrite Hc.
  destruct (find_first_not_of s whitespace) as [i|] eqn:Hf; simpl; [|reflexivity].
  destruct (find_last_after_first s i Hf) as (e & -> & Hle).
  reflexivity.
Qed.

Lemma trim_cons_other (c : ascii) (s : string) :
  contains whitespace c = false -> trim (String c s) = String c (rtrim s).
Proof.
  intros Hc; unfold trim, substr, rtrim; cbn [find_first_not_of find_last_not_of].
  rewrite Hc.
  destruct (find_last_not_of s whitespace) as [i|].
  - replace (S i - 0 + 1)%nat with (S (S i)) by lia. reflexivity.
  - simpl. now destruct s.
Qed.

Lemma rtrim_cons (c : ascii) (s : string) :
  rtrim (String c s) =
  match find_last_not_of s whitespace with
  | Some _ => String c (rtrim s)
  | None => if contains whitespace c then EmptyString else String c EmptyString
  end.
Proof.
  unfold rtrim; cbn [find_last_not_of].
  destruct (find_last_not_of s whitespace) as [i|]; [reflexivity|].
  destruct (contains whitespace c); [reflexivity|].
  simpl. now destruct s.
Qed.

Lemma rtrim_decomposition (s : string) :
  exists post : string,
    s = (rtrim s ++ post)%string /\
    all_whitespace post = true /\
    ends_with_whitespace (rtrim s) = false.
Proof.
  induction s as [|c s (post & Hs & Hpost & Hend)].
  - exists EmptyString; repeat split.
  - rewrite rtrim_cons.
    destruct (find_last_not_of s whitespace) as [i|] eqn:Hlast.
    + exists post. cbn [append]. rewrite <- Hs. repeat split; [assumption|].
      cbn [ends_with_whitespace].
      destruct (rtrim s) eqn:Hr; [|assumption].
      unfold rtrim in Hr. rewrite Hlast in Hr. destruct s; discriminate.
    + apply find_last_none in Hlast.
      destruct (contains whitespace c) eqn:Hc.
      * exists (String c s). repeat split.
        cbn [all_whitespace]. now rewrite Hc, Hlast.
      * exists s. repeat split; [assumption|].
        cbn [ends_with_whitespace]. assumption.
Qed.

(** X13.  [trim] cuts a string into three: a run of whitespace, the result, and
    another run of whitespace; and the result neither starts nor ends with
    whitespace.  So it removes the leading and the trailing whitespace,
    all of it and nothing else. *)
Theorem trim_decomposition (s : string) :
  exists pre post : string,
    s = (pre ++ trim s ++ post)%string /\
    all_whitespace pre = true /\
    all_whitespace post = true /\
    starts_with_whitespace (trim s) = false /\
    ends_with_whitespace (trim s) = false.
Proof.
  induction s as [|c s (pre & post & Hs & Hpre & Hpost & Hstart & Hend)].
  - exists EmptyString, EmptyString; repeat split.
  - destruct (contains whitespace c) eqn:Hc.
    + rewrite trim_cons_whitespace by assumption.
      exists (String c pre), post. cbn [append]. rewrite <- Hs.
      repeat split; try assumption.
      cbn [all_whitespace]. now rewrite Hc, Hpre.
    + rewrite trim_cons_other by assumption.
      destruct (rtrim_decomposition s) as (post' & Hs' & Hpost' & Hend').
      exists EmptyString, post'. cbn [append]. rewrite <- Hs'.
      repeat split; try assumption.
      cbn [ends_with_whitespace]. now destruct (rtrim s).
Qed.

Lemma find_last_rtrim (s : string) :
  find_last_not_of (rtrim s) whitespace = find_last_not_of s whitespace.
Proof.
  induction s as [|c s IH]; [reflexivity|].
  rewrite rtrim_cons. cbn [find_last_not_of].
  destruct (find_last_not_of s whitespace) as [i|] eqn:Hlast.
  - cbn [find_last_not_of]. now rewrite IH.
  - destruct (contains whitespace c) eqn:Hc; cbn [find_last_not_of];
      [reflexivity | now rewrite Hc].
Qed.

Lemma rtrim_idempotent (s : string) : rtrim (rtrim s) = rtrim s.
Proof.
  induction s as [|c s IH]; [reflexivity|].
  rewrite rtrim_cons.
  destruct (find_last_not_of s whitespace) as [i|] eqn:Hlast.
  - rewrite rtrim_cons, find_last_rtrim, Hlast. now rewrite IH.
  - destruct (contains whitespace c) eqn:Hc; [reflexivity|].
    rewrite rtrim_cons. cbn [find_last_not_of]. now rewrite Hc.
Qed.

(** X14.  Trimming twice is trimming once. *)
Theorem trim_idempotent (s : string) : trim (trim s) = trim s.
Proof.
  induction s as [|c s IH]; [reflexivity|].
  destruct (contains whitespace c) eqn:Hc.
  - now rewrite trim_cons_whitespace.
  - rewrite (trim_cons_other c s) by assumption.
    rewrite trim_cons_other by assumption.
    now rewrite rtrim_idempotent.
Qed.

Lemma trim_blank (s : string) :
  all_whitespace s = true -> trim s = EmptyString.
Proof.
  induction s as [|c s IH]; [reflexivity|].
  cbn [all_whitespace]. intros H; apply andb_true_iff in H as [Hc Hs].
  rewrite trim_cons_whitespace by assumption. now apply IH.
Qed.

(** X15.  [trim] returns the empty string exactly on the strings made of
    whitespace only, the empty string among them. *)
Theorem trim_empty_iff_all_whitespace (s : string) :
  trim s = EmptyString <-> all_whitespace s = true.
Proof.
  induction s as [|c s IH]; [split; reflexivity|].
  cbn [all_whitespace].
  destruct (contains whitespace c) eqn:Hc.
  - rewrite trim_cons_whitespace by assumption. simpl. exact IH.
  - rewrite trim_cons_other by assumption. split; discriminate.
Qed.

(** X16.  A string that neither starts nor ends with whitespace comes back from
    [trim] as it is. *)
Theorem trim_fixes_trimmed (s : string) :
  starts_with_whitespace s = false ->
  ends_with_whitespace s = false ->
  trim s = s.
Proof.
  intros Hstart Hend.
  destruct s as [|c s]; [reflexivity|].
  cbn [starts_with_whitespace] in Hstart.
  rewrite trim_cons_other by assumption. f_equal.
  assert (Hgen : forall t : string,
            (t = EmptyString \/ ends_with_whitespace t = false) -> rtrim t = t).
  { clear. induction t as [|a t IH]; intros H; [reflexivity|].
    destruct H as [H|H]; [discriminate|].
    rewrite rtrim_cons.
    destruct t as [|b t].
    - cbn [find_last_not_of ends_with_whitespace] in *. now rewrite H.
    - assert (Ht : rtrim (String b t) = String b t) by (apply IH; now right).
      destruct (find_last_not_of (String b t) whitespace) eqn:Hl.
      + now rewrite Ht.
      + unfold rtrim in Ht. rewrite Hl in Ht. discriminate. }
  apply Hgen. destruct s as [|b s]; [now left | right; exact Hend].
Qed.

Lemma trim_fixes_trimmed_witness : trim "a b"%string = "a b"%string.
Proof.
  apply (trim_fixes_trimmed "a b"%string); reflexivity.
Defined.

(** ** [to_lower] and the two answer checks *)

Lemma tolower_idempotent (c : ascii) : tolower (tolower c) = tolower c.
Proof. destruct c as [[] [] [] [] [] [] [] []]; reflexivity. Qed.

Lemma tolower_not_upper (c : ascii) : is_upper (tolower c) = false.
Proof. destruct c as [[] [] [] [] [] [] [] []]; reflexivity. Qed.

(** X17.  [to_lower] keeps the length of the string and leaves no capital
    letter in it. *)
Theorem to_lower_length_and_case (s : string) :
  String.length (to_lower s) = String.length s /\
  has_upper (to_lower s) = false.
Proof.
  induction s as [|c s [IHl IHu]]; [split; reflexivity|].
  cbn [to_lower String.length has_upper].
  now rewrite IHl, IHu, tolower_not_upper.
Qed.

Lemma to_lower_twice (s : string) : to_lower (to_lower s) = to_lower s.
Proof.
  induction s as [|c s IH]; [reflexivity|].
  cbn [to_lower]. now rewrite IH, tolower_idempotent.
Qed.

(** X18.  Lower-casing twice is lower-casing once, so the two checks ignore the
    case of the letters: an answer and its lower-case form get the same
    verdicts. *)
Theorem answer_checks_ignore_case (answer : string) :
  to_lower (to_lower answer) = to_lower answer /\
  is_affirmative (to_lower answer) = is_affirmative answer /\
  is_negative (to_lower answer) = is_negative answer.
Proof.
  unfold is_affirmative, is_negative; cbv zeta.
  now rewrite to_lower_twice.
Qed.

(** X19.  No answer is taken both for a yes and for a no. *)
Theorem answer_checks_exclusive (answer : string) :
  is_affirmative answer && is_negative answer = false.
Proof.
  unfold is_affirmative, is_negative; cbv zeta.
  set (lower_answer := to_lower answer).
  repeat match goal with
  | |- context [(lower_answer =? ?w)%string] =>
      let E := fresh "E" in
      destruct (String.eqb_spec lower_answer w) as [E|E];
      [rewrite E; reflexivity|]
  end.
  reflexivity.
Qed.

(** ** [App::run] *)

Lemma run_loop_decisive (attempts : Z) (line : string) (cin : list string) :
  (attempts < 5)%Z -> decisive line = true ->
  App.exit_code (App.run_loop attempts (line :: cin)) = 0%Z /\
  App.cin_left (App.run_loop attempts (line :: cin)) = cin /\
  In (if is_affirmative (trim line)
      then App.log_confirmed (attempts + 1)
      else App.log_negative (attempts + 1))
     (App.output (App.run_loop attempts (line :: cin))).
Proof.
  intros Ha Hd. cbn [App.run_loop].
  destruct (Z.ltb_spec attempts App.max_attempts) as [_|Hge];
    [|unfold App.max_attempts in Hge; lia].
  unfold decisive in Hd.
  destruct (is_affirmative (trim line)) eqn:Haff; cbn [App.exit_code App.cin_left App.output].
  - repeat split. right. apply in_or_app; right. now left.
  - simpl in Hd. rewrite Hd. cbn [App.exit_code App.cin_left App.output].
    repeat split. right. apply in_or_app; right. now left.
Qed.

Lemma run_loop_indecisive (attempts : Z) (line : string) (cin : list string) :
  (attempts < 5)%Z -> decisive line = false ->
  App.run_loop attempts (line :: cin) =
  let rest := App.run_loop (attempts + 1) cin in
  App.Outcome (App.exit_code rest)
    (App.print_question :: App.empty_note (trim line) ++
     [App.log_invalid (trim line); App.print_yes_or_no] ++
     App.remaining_note (attempts + 1) ++ App.output rest)
    (App.cin_left rest).
Proof.
  intros Ha Hd. cbn [App.run_loop].
  destruct (Z.ltb_spec attempts App.max_attempts) as [_|Hge];
    [|unfold App.max_attempts in Hge; lia].
  unfold decisive in Hd. apply orb_false_iff in Hd as [-> ->]. reflexivity.
Qed.

Lemma run_loop_exhausted (attempts : Z) (cin : list string) :
  (5 <= attempts)%Z ->
  App.run_loop attempts cin =
  App.Outcome 0 [App.log_max_attempts 5; App.print_too_many; App.print_thanks] cin.
Proof.
  intros Ha. destruct cin; cbn [App.run_loop];
    (destruct (Z.ltb_spec attempts App.max_attempts) as [Hlt|_];
     [unfold App.max_attempts in Hlt; lia | reflexivity]).
Qed.

Lemma run_loop_exit_code (cin : list string) :
  forall attempts : Z, (0 <= attempts)%Z ->
  (App.exit_code (App.run_loop attempts cin) = 1%Z <->
   (attempts + Z.of_nat (length cin) < 5)%Z /\ forallb indecisive cin = true) /\
  (App.exit_code (App.run_loop attempts cin) = 0%Z \/
   App.exit_code (App.run_loop attempts cin) = 1%Z).
Proof.
  induction cin as [|line cin IH]; intros attempts Ha.
  - destruct (Z.lt_ge_cases attempts 5) as [Hlt|Hge].
    + cbn [App.run_loop].
      destruct (Z.ltb_spec attempts App.max_attempts) as [_|Hge];
        [|unfold App.max_attempts in Hge; lia].
      simpl. split; [split; [intros _; split; [lia|reflexivity] | reflexivity] | now right].
    + rewrite run_loop_exhausted by assumption. simpl.
      split; [split; [discriminate | intros [H _]; lia] | now left].
  - destruct (Z.lt_ge_cases attempts 5) as [Hlt|Hge].
    + destruct (decisive line) eqn:Hd.
      * destruct (run_loop_decisive attempts line cin Hlt Hd) as (-> & _ & _).
        cbn [forallb]. unfold indecisive at 1. rewrite Hd. simpl.
        split; [split; [discriminate | intros [_ H]; discriminate] | now left].
      * rewrite run_loop_indecisive by assumption. cbv zeta. cbn [App.exit_code].
        destruct (IH (attempts + 1)%Z ltac:(lia)) as [IHiff IHor].
        cbn [forallb length]. unfold indecisive at 1. rewrite Hd. simpl negb.
        rewrite andb_true_l. split; [|exact IHor].
        rewrite IHiff. split; intros [H1 H2]; (split; [lia | assumption]).
    + rewrite run_loop_exhausted by assumption. cbn [App.exit_code length].
      split; [split; [discriminate | intros [H _]; lia] | now left].
Qed.

(** X20.  [run] returns 1 exactly when the input runs out before an answer is
    accepted: fewer than 5 lines, none of them a yes or a no once trimmed.
    In every other case it returns 0. *)
Theorem run_exit_code (cin : list string) :
  (App.exit_code (App.run cin) = 1%Z <->
   (length cin < 5)%nat /\ forallb indecisive cin = true) /\
  (App.exit_code (App.run cin) = 0%Z \/ App.exit_code (App.run cin) = 1%Z).
Proof.
  unfold App.run; cbv zeta; cbn [App.exit_code].
  destruct (run_loop_exit_code cin 0%Z ltac:(lia)) as [Hiff Hor].
  split; [|exact Hor].
  rewrite Hiff. split; intros [H1 H2]; (split; [lia | assumption]).
Qed.

Lemma run_loop_first_answer (before : list string) (line : string)
  (after : list string) :
  forall attempts : Z, (0 <= attempts)%Z ->
  (attempts + Z.of_nat (length before) < 5)%Z ->
  forallb indecisive before = true ->
  decisive line = true ->
  let r := App.run_loop attempts (before ++ line :: after) in
  App.exit_code r = 0%Z /\
  App.cin_left r = after /\
  In (if is_affirmative (trim line)
      then App.log_confirmed (attempts + Z.of_nat (length before) + 1)
      else App.log_negative (attempts + Z.of_nat (length before) + 1))
     (App.output r).
Proof.
  induction before as [|l before IH]; intros attempts Ha Hlen Hall Hd r; subst r.
  - cbn [app length Z.of_nat]. rewrite Z.add_0_r.
    apply run_loop_decisive; [lia | assumption].
  - cbn [forallb] in Hall. apply andb_true_iff in Hall as [Hl Hall].
    unfold indecisive in Hl. apply negb_true_iff in Hl.
    cbn [length] in Hlen. cbn [app].
    rewrite run_loop_indecisive by (assumption || lia).
    cbv zeta. cbn [App.exit_code App.cin_left App.output].
    destruct (IH (attempts + 1)%Z ltac:(lia) ltac:(lia) Hall Hd) as (He & Hc & Hi).
    repeat split; try assumption.
    replace (attempts + Z.of_nat (length (l :: before)) + 1)%Z
      with (attempts + 1 + Z.of_nat (length before) + 1)%Z
      by (cbn [length]; lia).
    right. apply in_or_app; right.
    apply in_or_app; right. apply in_or_app; right. exact Hi.
Qed.

(** X21.  [run] stops at the first line that is a yes or a no, provided it is
    among the first 5 lines: it returns 0, leaves the lines after it unread,
    and logs the number of that attempt, the lines before it counted. *)
Theorem run_stops_at_first_answer (before : list string) (line : string)
  (after : list string) :
  (length before < 5)%nat ->
  forallb indecisive before = true ->
  decisive line = true ->
  let r := App.run (before ++ line :: after) in
  App.exit_code r = 0%Z /\
  App.cin_left r = after /\
  In (if is_affirmative (trim line)
      then App.log_confirmed (Z.of_nat (length before) + 1)
      else App.log_negative (Z.of_nat (length before) + 1))
     (App.output r).
Proof.
  intros Hlen Hall Hd r; subst r.
  destruct (run_loop_first_answer before line after 0%Z
              ltac:(lia) ltac:(lia) Hall Hd) as (He & Hc & Hi).
  unfold App.run; cbv zeta; cbn [App.exit_code App.cin_left App.output].
  repeat split; try assumption.
  apply in_or_app; right. exact Hi.
Qed.

Lemma run_stops_at_first_answer_witness :
  let r := App.run ["maybe"; " Oui "; "later"]%string in
  App.exit_code r = 0%Z /\
  App.cin_left r = ["later"%string] /\
  In (App.log_confirmed 2) (App.output r).
Proof.
  apply (run_stops_at_first_answer ["maybe"%string] " Oui "%string ["later"%string]).
  - simpl; lia.
  - reflexivity.
  - reflexivity.
Defined.

Lemma run_loop_gives_up (m : nat) :
  forall (attempts : Z) (cin : list string),
  (0 <= attempts)%Z -> (attempts + Z.of_nat m = 5)%Z ->
  (m <= length cin)%nat ->
  forallb indecisive (firstn m cin) = true ->
  let r := App.run_loop attempts cin in
  App.exit_code r = 0%Z /\
  App.cin_left r = skipn m cin /\
  exists out : list App.event,
    App.output r =
    out ++ [App.log_max_attempts 5; App.print_too_many; App.print_thanks].
Proof.
  induction m as [|m IH]; intros attempts cin Ha Hm Hlen Hall r; subst r.
  - rewrite run_loop_exhausted by lia. cbn [skipn].
    repeat split. now exists [].
  - destruct cin as [|line cin]; [cbn [length] in Hlen; lia|].
    cbn [firstn forallb] in Hall. apply andb_true_iff in Hall as [Hl Hall].
    unfold indecisive in Hl. apply negb_true_iff in Hl.
    cbn [length] in Hlen.
    rewrite run_loop_indecisive by (assumption || lia).
    cbv zeta. cbn [App.exit_code App.cin_left App.output skipn].
    destruct (IH (attempts + 1)%Z cin ltac:(lia) ltac:(lia) ltac:(lia) Hall)
      as (He & Hc & out & Ho).
    repeat split; try assumption.
    rewrite Ho.
    exists (App.print_question :: App.empty_note (trim line) ++
            [App.log_invalid (trim line); App.print_yes_or_no] ++
            App.remaining_note (attempts + 1) ++ out).
    repeat first [rewrite <- app_assoc | progress cbn [app]]. reflexivity.
Qed.

(** X22.  After 5 lines none of which is a yes or a no, [run] gives up: it
    returns 0, its last messages are the three of the give-up, and whatever
    follows the fifth line stays unread. *)
Theorem run_gives_up_after_five (cin : list string) :
  (5 <= length cin)%nat ->
  forallb indecisive (firstn 5 cin) = true ->
  let r := App.run cin in
  App.exit_code r = 0%Z /\
  App.cin_left r = skipn 5 cin /\
  exists out : list App.event,
    App.output r =
    out ++ [App.log_max_attempts 5; App.print_too_many; App.print_thanks].
Proof.
  intros Hlen Hall r; subst r.
  destruct (run_loop_gives_up 5 0%Z cin ltac:(lia) ltac:(lia) Hlen Hall)
    as (He & Hc & out & Ho).
  unfold App.run; cbv zeta; cbn [App.exit_code App.cin_left App.output].
  repeat split; try assumption.
  rewrite Ho. eexists. now rewrite app_assoc.
Qed.

Lemma run_gives_up_after_five_witness :
  let r := App.run ["a"; "b"; "c"; "d"; "e"; "yes"]%string in
  App.exit_code r = 0%Z /\
  App.cin_left r = ["yes"%string] /\
  exists out : list App.event,
    App.output r =
    out ++ [App.log_max_attempts 5; App.print_too_many; App.print_thanks].
Proof.
  apply (run_gives_up_after_five ["a"; "b"; "c"; "d"; "e"; "yes"]%string).
  - simpl; lia.
  - reflexivity.
Defined.

Lemma run_loop_input_ends (cin : list string) :
  forall attempts : Z, (0 <= attempts)%Z ->
  (attempts + Z.of_nat (length cin) < 5)%Z ->
  forallb indecisive cin = true ->
  let r := App.run_loop attempts cin in
  App.exit_code r = 1%Z /\
  App.cin_left r = [] /\
  exists out : list App.event,
    App.output r = out ++ [App.print_question; App.log_read_failed].
Proof.
  induction cin as [|line cin IH]; intros attempts Ha Hlen Hall r; subst r.
  - cbn [App.run_loop].
    destruct (Z.ltb_spec attempts App.max_attempts) as [_|Hge];
      [|unfold App.max_attempts in Hge; cbn [length] in Hlen; lia].
    repeat split. now exists [].
  - cbn [forallb] in Hall. apply andb_true_iff in Hall as [Hl Hall].
    unfold indecisive in Hl. apply negb_true_iff in Hl.
    cbn [length] in Hlen.
    rewrite run_loop_indecisive by (assumption || lia).
    cbv zeta. cbn [App.exit_code App.cin_left App.output].
    destruct (IH (attempts + 1)%Z ltac:(lia) ltac:(lia) Hall)
      as (He & Hc & out & Ho).
    repeat split; try assumption.
    rewrite Ho.
    exists (App.print_question :: App.empty_note (trim line) ++
            [App.log_invalid (trim line); App.print_yes_or_no] ++
            App.remaining_note (attempts + 1) ++ out).
    repeat first [rewrite <- app_assoc | progress cbn [app]]. reflexivity.
Qed.

(** X23.  When the input ends within the first 4 lines without a yes or a no,
    [run] has read all of it, asked once more, and reports the failed read
    last; it returns 1. *)
Theorem run_input_ends (cin : list string) :
  (length cin < 5)%nat ->
  forallb indecisive cin = true ->
  let r := App.run cin in
  App.exit_code r = 1%Z /\
  App.cin_left r = [] /\
  exists out : list App.event,
    App.output r = out ++ [App.print_question; App.log_read_failed].
Proof.
  intros Hlen Hall r; subst r.
  destruct (run_loop_input_ends cin 0%Z ltac:(lia) ltac:(lia) Hall)
    as (He & Hc & out & Ho).
  unfold App.run; cbv zeta; cbn [App.exit_code App.cin_left App.output].
  repeat split; try assumption.
  rewrite Ho. eexists. now rewrite app_assoc.
Qed.

Lemma run_input_ends_witness :
  let r := App.run ["perhaps"; ""]%string in
  App.exit_code r = 1%Z /\
  App.cin_left r = [] /\
  exists out : list App.event,
    App.output r = out ++ [App.print_question; App.log_read_failed].
Proof.
  apply (run_input_ends ["perhaps"; ""]%string).
  - simpl; lia.
  - reflexivity.
Defined.

(** X24.  A line of whitespace only (an empty line among them) is no answer: it
    uses up an attempt, and it draws both the request to provide an answer
    and the complaint about an invalid one. *)
Theorem run_blank_line (line : string) (cin : list string) :
  all_whitespace line = true ->
  decisive line = false /\
  exists out : list App.event,
    App.output (App.run (line :: cin)) =
    [App.log_started; App.print_welcome; App.print_fmt_version;
     App.print_spdlog; App.print_built] ++
    [App.print_question; App.print_provide_answer;
     App.log_invalid EmptyString; App.print_yes_or_no;
     App.print_remaining 4 "s"%string] ++ out.
Proof.
  intros Hws.
  apply trim_blank in Hws.
  assert (Hd : decisive line = false) by (unfold decisive; now rewrite Hws).
  split; [assumption|].
  unfold App.run; cbv zeta; cbn [App.output].
  rewrite run_loop_indecisive by (assumption || lia).
  cbv zeta; cbn [App.output]. rewrite Hws.
  eexists. reflexivity.
Qed.

Lemma run_blank_line_witness :
  decisive "  "%string = false /\
  exists out : list App.event,
    App.output (App.run ["  "%string]) =
    [App.log_started; App.print_welcome; App.print_fmt_version;
     App.print_spdlog; App.print_built] ++
    [App.print_question; App.print_provide_answer;
     App.log_invalid EmptyString; App.print_yes_or_no;
     App.print_remaining 4 "s"%string] ++ out.
Proof.
  apply (run_blank_line "  "%string []). reflexivity.
Defined.

Lemma run_loop_remaining (cin : list string) :
  forall (attempts remaining : Z) (plural : string),
  (0 <= attempts)%Z ->
  In (App.print_remaining remaining plural)
     (App.output (App.run_loop attempts cin)) ->
  (1 <= remaining <= 4)%Z /\
  plural = (if (remaining =? 1)%Z then "" else "s")%string.
Proof.
  induction cin as [|line cin IH]; intros attempts remaining plural Ha Hin.
  - cbn [App.run_loop] in Hin.
    destruct (attempts <? App.max_attempts)%Z; cbn [App.output] in Hin;
      repeat (destruct Hin as [Hin|Hin]; [discriminate|]); contradiction.
  - destruct (Z.lt_ge_cases attempts 5) as [Hlt|Hge].
    + cbn [App.run_loop] in Hin.
      destruct (Z.ltb_spec attempts App.max_attempts) as [_|Hge];
        [|unfold App.max_attempts in Hge; lia].
      assert (Hnote : forall a, ~ In (App.print_remaining remaining plural)
                                   (App.empty_note a)).
      { intros a; unfold App.empty_note.
        destruct (a =? "")%string; [intros [H|[]]; discriminate | intros []]. }
      destruct (is_affirmative (trim line)); [|destruct (is_negative (trim line))];
        cbn [App.output] in Hin.
      * destruct Hin as [Hin|Hin]; [discriminate|].
        apply in_app_or in Hin as [Hin|Hin]; [now apply Hnote in Hin|].
        repeat (destruct Hin as [Hin|Hin]; [discriminate|]); contradiction.
      * destruct Hin as [Hin|Hin]; [discriminate|].
        apply in_app_or in Hin as [Hin|Hin]; [now apply Hnote in Hin|].
        repeat (destruct Hin as [Hin|Hin]; [discriminate|]); contradiction.
      * destruct Hin as [Hin|Hin]; [discriminate|].
        apply in_app_or in Hin as [Hin|Hin]; [now apply Hnote in Hin|].
        apply in_app_or in Hin as [Hin|Hin];
          [repeat (destruct Hin as [Hin|Hin]; [discriminate|]); contradiction|].
        apply in_app_or in Hin as [Hin|Hin].
        -- unfold App.remaining_note, App.max_attempts in Hin.
           destruct (Z.ltb_spec (attempts + 1) 5) as [Hlt'|_]; [|destruct Hin].
           destruct Hin as [Hin|[]].
           assert (Hr : remaining = (5 - (attempts + 1))%Z) by congruence.
           assert (Hp : plural =
                        (if (5 - (attempts + 1) =? 1)%Z then "" else "s")%string)
             by congruence.
           rewrite Hp, Hr. split; [lia | reflexivity].
        -- apply (IH (attempts + 1)%Z); [lia | assumption].
    + rewrite run_loop_exhausted in Hin by assumption. cbn [App.output] in Hin.
      repeat (destruct Hin as [Hin|Hin]; [discriminate|]); contradiction.
Qed.

(** X25.  Whenever [run] tells how many attempts remain, the number is between 1
    and 4, and the word "attempt" gets its plural "s" except for 1: it
    never announces 0 attempts. *)
Theorem run_remaining_attempts (cin : list string) (remaining : Z)
  (plural : string) :
  In (App.print_remaining remaining plural) (App.output (App.run cin)) ->
  (1 <= remaining <= 4)%Z /\
  plural = (if (remaining =? 1)%Z then "" else "s")%string.
Proof.
  unfold App.run; cbv zeta; cbn [App.output]. intros Hin.
  apply in_app_or in Hin as [Hin|Hin].
  - repeat (destruct Hin as [Hin|Hin]; [discriminate|]); contradiction.
  - apply (run_loop_remaining cin 0%Z); [lia | assumption].
Qed.

Lemma run_remaining_attempts_witness :
  In (App.print_remaining 1 ""%string)
     (App.output (App.run ["a"; "b"; "c"; "d"]%string)) /\
  (1 <= 1 <= 4)%Z /\ ""%string = (if (1 =? 1)%Z then "" else "s")%string.
Proof.
  assert (Hin : In (App.print_remaining 1 ""%string)
                   (App.output (App.run ["a"; "b"; "c"; "d"]%string)))
    by (vm_compute; tauto).
  split; [exact Hin|].
  exact (run_remaining_attempts ["a"; "b"; "c"; "d"]%string 1 ""%string Hin).
Defined.
